(** * stacks.js, [src/operations/utils.ts]: byte-size estimator, UTXO funder,
      signer driver and base-40 decoder

    A shallow embedding of the operations module.  Byte counts, indices and
    [BN] big integers are exact integers ([Z]).  The funder is embedded
    twice.  The first embedding runs on a store of arrays, addressed by
    reference, so that a copy ([filter], [slice]) and an in-place update
    ([sort]) are told apart; its amounts and its fee rate are integers, and
    it carries the properties of the control flow, of the selection and of
    the store.  The second ([fund64]) computes with the code's numbers,
    IEEE 754 doubles ([F64]), fee rate included; it carries the properties
    of the amounts, and it is proved to agree with the first on the integer
    inputs that doubles hold exactly ([fund64_exact]). *)

From Stdlib Require Import ZArith Lia List Permutation Sorted Ascii String.
From stdpp Require Import base tactics option list gmap strings fin_maps sorting.

#[local] Open Scope Z_scope.

(** * Part I: the embedding *)

(** ** Outcomes of a call: a returned value or a thrown exception *)

Inductive exn : Type :=
| NotEnoughFundsError (amount : Z)
| TypeError
| Error (message : string).

Inductive outcome (A : Type) : Type :=
| Returned (a : A)
| Threw (e : exn).
Arguments Returned {A} a.
Arguments Threw {A} e.

Definition is_error {A : Type} (o : outcome A) : Prop :=
  match o with Returned _ => False | Threw _ => True end.

(** ** Transactions and the transaction builder (bitcoinjs-lib objects) *)

(** A [Buffer] is a byte string; only its [length] is read here. *)
Definition Buffer := list Byte.byte.

Definition buffer_length (b : Buffer) : Z := Z.of_nat (length b).

(** [interface txPoint { script: { length: number } }]; the field may be
    missing on an object (the code tests [input.script]). *)
Record txPoint : Type := { script : option Buffer }.

Record TxInput : Type := {
  in_hash : string;
  in_index : Z;
  in_script : option Buffer
}.

Record TxOutput : Type := {
  out_value : Z;
  out_script : option Buffer
}.

Record Transaction : Type := {
  ins : list TxInput;
  outs : list TxOutput
}.

(** [TransactionBuilder]: the code reaches the transaction through the
    private field [__tx]. *)
Record TransactionBuilder : Type := { __tx : Transaction }.

Definition input_point (i : TxInput) : txPoint := {| script := in_script i |}.
Definition output_point (o : TxOutput) : txPoint := {| script := out_script o |}.

(** [txBuilder.addInput(txHash, vout)] of bitcoinjs-lib: the spec's
    transaction-builder interface describes it as the mutator that appends
    one input referencing [(txHash, vout)]; the new input carries the empty
    script until it is signed. *)
Definition addInput (txB : TransactionBuilder) (txHash : string) (vout : Z)
  : TransactionBuilder :=
  {| __tx := {| ins := ins (__tx txB)
                       ++ [ {| in_hash := txHash; in_index := vout;
                               in_script := Some [] |} ];
                outs := outs (__tx txB) |} |}.

(** ** Byte-size estimator *)

Definition TX_EMPTY_SIZE : Z := 4 + 1 + 1 + 4.
Definition TX_INPUT_BASE : Z := 32 + 4 + 1 + 4.
Definition TX_INPUT_PUBKEYHASH : Z := 107.
Definition TX_OUTPUT_BASE : Z := 8 + 1.
Definition TX_OUTPUT_PUBKEYHASH : Z := 25.

(** [input && input.script && input.script.length > 0]: [None] is the
    [null] placeholder of [estimateTXBytes]. *)
Definition inputBytes (input : option txPoint) : Z :=
  match input with
  | Some {| script := Some s |} =>
      if buffer_length s >? 0
      then TX_INPUT_BASE + buffer_length s
      else TX_INPUT_BASE + TX_INPUT_PUBKEYHASH
  | _ => TX_INPUT_BASE + TX_INPUT_PUBKEYHASH
  end.

Definition outputBytes (output : option txPoint) : Z :=
  match output with
  | Some {| script := Some s |} =>
      if buffer_length s >? 0
      then TX_OUTPUT_BASE + buffer_length s
      else TX_OUTPUT_BASE + TX_OUTPUT_PUBKEYHASH
  | _ => TX_OUTPUT_BASE + TX_OUTPUT_PUBKEYHASH
  end.

(** [Array.prototype.reduce] with an initial value is a left fold. *)
Definition transactionBytes (inputs outputs : list (option txPoint)) : Z :=
  TX_EMPTY_SIZE
  + fold_left (fun a x => a + inputBytes x) inputs 0
  + fold_left (fun a x => a + outputBytes x) outputs 0.

Definition getTransactionInsideBuilder (txBuilder : TransactionBuilder)
  : Transaction := __tx txBuilder.

(** [txIn instanceof bitcoinjs.Transaction]: the argument is a transaction
    or a builder. *)
Definition getTransaction (txIn : Transaction + TransactionBuilder) : Transaction :=
  match txIn with
  | inl tx => tx
  | inr txBuilder => getTransactionInsideBuilder txBuilder
  end.

(** [new Array(n)] followed by [fill(null)]. *)
Definition dummies (n : nat) : list (option txPoint) := replicate n None.

Definition estimateTXBytes (txIn : Transaction + TransactionBuilder)
    (additionalInputs additionalOutputs : nat) : Z :=
  let innerTx := getTransaction txIn in
  let dummyInputs := dummies additionalInputs in
  let dummyOutputs := dummies additionalOutputs in
  let inputs := map (fun i => Some (input_point i)) (ins innerTx) ++ dummyInputs in
  let outputs := map (fun o => Some (output_point o)) (outs innerTx) ++ dummyOutputs in
  transactionBytes inputs outputs.

Definition sumOutputValues (txIn : Transaction + TransactionBuilder) : Z :=
  let innerTx := getTransaction txIn in
  fold_left (fun agg x => agg + out_value x) (outs innerTx) 0.

(** ** Base-40 decoder *)

Module B40.

(** [BN] of bn.js: arbitrary-precision integers. *)
Definition BN := Z.

Definition hex_digit (d : N) : ascii :=
  nth (N.to_nat d) (list_ascii_of_string "0123456789abcdef") "0"%char.

(** The hexadecimal digits of a positive magnitude, most significant
    first, pushed in front of [out]. *)
Fixpoint hex_digits (fuel : nat) (n : N) (out : string) : string :=
  match fuel with
  | O => out
  | S fuel' =>
      if (n =? 0)%N then out
      else hex_digits fuel' (n / 16)%N (String (hex_digit (n mod 16)%N) out)
  end.

Definition to_hex (n : N) : string :=
  if (n =? 0)%N then "0" else hex_digits (N.to_nat (N.size n)) n "".

(** bn.js, [toString]: [while (out.length % padding !== 0) out = '0' + out]. *)
Fixpoint zero_pad (fuel : nat) (padding : nat) (out : string) : string :=
  match fuel with
  | O => out
  | S fuel' =>
      if (String.length out mod padding =? 0)%nat then out
      else zero_pad fuel' padding (String "0" out)
  end.

(** [bn.toString(16, padding)] of bn.js: the hexadecimal digits of the
    magnitude, left-padded with zeros until the length is a multiple of
    [padding] (the seven digits of [ffb9602] are rendered with eight
    characters under [toString('hex', 2)]), then the sign. *)
Definition toString16 (n : BN) (padding : nat) : string :=
  let out := to_hex (Z.abs_N n) in
  let out := zero_pad padding padding out in
  if n <? 0 then String "-" out else out.

Definition characters : string := "0123456789abcdefghijklmnopqrstuvwxyz-_.+".

(** [String.prototype.indexOf] for a one-character needle: the first
    position, or [-1]. *)
Fixpoint indexOf_from (i : Z) (s : string) (c : ascii) : Z :=
  match s with
  | EmptyString => -1
  | String x s' => if Ascii.eqb x c then i else indexOf_from (i + 1) s' c
  end.

Definition indexOf (s : string) (c : ascii) : Z := indexOf_from 0 s c.

(** [decodeB40]: the function has no [throw] of its own; a call's outcome is
    the string it returns.  A string is a sequence of one-byte characters,
    which [split('')] takes apart one by one. *)
Definition decodeB40 (input : string) : outcome string :=
  let base : BN := 40 in
  let inputDigits := rev (list_ascii_of_string input) in
  let digitValues :=
    imap (fun (exponent : nat) (character : ascii) =>
            indexOf characters character * base ^ Z.of_nat exponent)
         inputDigits in
  let sum := fold_left (fun agg cur => agg + cur) digitValues 0 in
  Returned (toString16 sum 2).

(** *** The reading of a string as a number, in the words of the spec *)

(** Digit value of a character: its index in the alphabet. *)
Definition digit_value (c : ascii) : Z := indexOf characters c.

Definition in_alphabet (c : ascii) : bool := 0 <=? digit_value c.

Definition over_alphabet (input : string) : Prop :=
  forallb in_alphabet (list_ascii_of_string input) = true.

Definition outside_alphabet (input : string) : Prop :=
  existsb (fun c => negb (in_alphabet c)) (list_ascii_of_string input) = true.

(** Base-40 positional value, most significant digit first. *)
Definition base40_value (input : string) : Z :=
  fold_left (fun acc c => acc * 40 + digit_value c) (list_ascii_of_string input) 0.

(** Value of a string of hexadecimal digits (lowercase), most significant
    first; [None] when a character is not a digit. *)
Definition hex_digit_value (c : ascii) : option Z :=
  let i := indexOf "0123456789abcdef" c in
  if 0 <=? i then Some i else None.

Fixpoint hex_value_from (acc : Z) (s : string) : option Z :=
  match s with
  | EmptyString => Some acc
  | String c s' =>
      match hex_digit_value c with
      | Some d => hex_value_from (acc * 16 + d) s'
      | None => None
      end
  end.

Definition hex_value (s : string) : option Z := hex_value_from 0 s.

(** "Zero-padded to at least 2 hex digits": zeros in front while the string
    is shorter than two characters. *)
Definition pad_min2 (s : string) : string :=
  match s with
  | EmptyString => "00"
  | String c EmptyString => String "0" (String c EmptyString)
  | _ => s
  end.

(** The decoder as the spec words it: the hexadecimal representation of the
    base-40 value, zero-padded to at least two digits. *)
Definition decode_min2 (input : string) : string :=
  pad_min2 (to_hex (Z.to_N (base40_value input))).

(** A string of hexadecimal digits with no more zeros in front than an even
    length asks for. *)
Definition byte_aligned_canonical (r : string) : Prop :=
  (String.length r mod 2 = 0)%nat
  /\ (r = "00"
      \/ (exists c rest, r = String c rest /\ c <> "0"%char)
      \/ (exists c rest, r = String "0" (String c rest) /\ c <> "0"%char)).

(** Number of hexadecimal digits that [hex_digits] pushes. *)
Fixpoint hex_length (fuel : nat) (n : N) : nat :=
  match fuel with
  | O => O
  | S fuel' => if (n =? 0)%N then O else S (hex_length fuel' (n / 16)%N)
  end.

End B40.

(** ** UTXO funder *)

Record UTXO : Type := {
  value : Z;
  tx_hash : string;
  tx_output_n : Z
}.

(** *** [Array.prototype.sort] with a comparator

    The sort is stable: an element goes in front of the first element that
    the comparator does not order before it. *)
Fixpoint insert_by {A : Type} (cmp : A -> A -> Z) (x : A) (l : list A) : list A :=
  match l with
  | [] => [x]
  | y :: l' => if cmp x y <=? 0 then x :: y :: l' else y :: insert_by cmp x l'
  end.

Definition sort_by {A : Type} (cmp : A -> A -> Z) (l : list A) : list A :=
  fold_right (insert_by cmp) [] l.

(** *** The state: the transaction builder and the store of UTXO arrays

    An array value is a reference into [arrays]; [filter] and [slice]
    allocate a new array, [sort] overwrites the array it is called on.  The
    builder object [txBuilderIn], which every call of the recursion receives,
    is the [builder] of the state. *)
Definition ref := nat.

Record world : Type := {
  builder : TransactionBuilder;
  arrays : list (list UTXO)
}.

(** A computation: [None] when the recursion budget is exhausted. *)
Definition M (A : Type) : Type := world -> option (outcome A * world).

Definition ret {A : Type} (a : A) : M A := fun w => Some (Returned a, w).

Definition throw {A : Type} (e : exn) : M A := fun w => Some (Threw e, w).

Definition out_of_fuel {A : Type} : M A := fun _ => None.

Definition bind {A B : Type} (c : M A) (k : A -> M B) : M B :=
  fun w =>
    match c w with
    | Some (Returned a, w') => k a w'
    | Some (Threw e, w') => Some (Threw e, w')
    | None => None
    end.

Notation "x <- c ;; k" := (bind c (fun x => k))
  (at level 100, c at next level, right associativity).
Notation "c ;;; k" := (bind c (fun _ => k))
  (at level 100, right associativity).

Definition array_read (r : ref) : M (list UTXO) :=
  fun w =>
    match arrays w !! r with
    | Some a => Some (Returned a, w)
    | None => Some (Threw TypeError, w)
    end.

Definition array_write (r : ref) (a : list UTXO) : M unit :=
  fun w => Some (Returned tt, {| builder := builder w; arrays := <[r := a]> (arrays w) |}).

Definition array_alloc (a : list UTXO) : M ref :=
  fun w => Some (Returned (length (arrays w)),
                 {| builder := builder w; arrays := arrays w ++ [a] |}).

(** [a.length] *)
Definition array_length (r : ref) : M Z :=
  a <- array_read r ;; ret (Z.of_nat (length a)).

(** [a.filter(p)]: a new array. *)
Definition array_filter (r : ref) (p : UTXO -> bool) : M ref :=
  a <- array_read r ;; array_alloc (List.filter p a).

(** [a.sort(cmp)]: in place. *)
Definition array_sort (r : ref) (cmp : UTXO -> UTXO -> Z) : M unit :=
  a <- array_read r ;; array_write r (sort_by cmp a).

(** [a[i]], followed by a field access: a [TypeError] on [undefined]. *)
Definition array_get (r : ref) (i : nat) : M UTXO :=
  a <- array_read r ;;
  match a !! i with
  | Some u => ret u
  | None => throw TypeError
  end.

(** [a.slice(start)]: a new array. *)
Definition array_slice (r : ref) (start : nat) : M ref :=
  a <- array_read r ;; array_alloc (drop start a).

Definition get_builder : M TransactionBuilder :=
  fun w => Some (Returned (builder w), w).

Definition builder_addInput (txHash : string) (vout : Z) : M unit :=
  fun w => Some (Returned tt,
                 {| builder := addInput (builder w) txHash vout; arrays := arrays w |}).

(** *** [addUTXOsToFund] *)

(** "how much are we increasing fees by adding an input ?", for an integer
    fee rate; [newFees64] below is the same product for any double. *)
Definition newFees (txBuilderIn : TransactionBuilder) (feeRate : Z) : Z :=
  feeRate * (estimateTXBytes (inr txBuilderIn) 1 0
             - estimateTXBytes (inr txBuilderIn) 0 0).

Definition utxoThreshhold (amountToFund newFees : Z) (fundNewFees : bool) : Z :=
  if fundNewFees then amountToFund + newFees else amountToFund.

(** The recursion is on the budget [fuel]; the pool [utxos] is a reference
    to an array of the store, and [fundNewFees] (default [true] in the code)
    is always given. *)
Fixpoint addUTXOsToFund (fuel : nat) (utxos : ref) (amountToFund feeRate : Z)
    (fundNewFees : bool) : M Z :=
  len <- array_length utxos ;;
  if len =? 0 then throw (NotEnoughFundsError amountToFund)
  else
    txBuilderIn <- get_builder ;;
    let newFees := newFees txBuilderIn feeRate in
    let utxoThreshhold := utxoThreshhold amountToFund newFees fundNewFees in
    goodUtxos <- array_filter utxos (fun utxo => value utxo >=? utxoThreshhold) ;;
    goodLen <- array_length goodUtxos ;;
    if goodLen >? 0 then
      array_sort goodUtxos (fun a b => value a - value b) ;;;
      selected <- array_get goodUtxos 0 ;;
      let change := value selected - amountToFund in
      let change := if fundNewFees then change - newFees else change in
      builder_addInput (tx_hash selected) (tx_output_n selected) ;;;
      ret change
    else
      array_sort utxos (fun a b => value b - value a) ;;;
      largest <- array_get utxos 0 ;;
      if newFees >=? value largest then throw (NotEnoughFundsError amountToFund)
      else
        builder_addInput (tx_hash largest) (tx_output_n largest) ;;;
        let remainToFund := amountToFund - value largest in
        let remainToFund := if fundNewFees then remainToFund + newFees else remainToFund in
        rest <- array_slice utxos 1 ;;
        match fuel with
        | O => out_of_fuel
        | S fuel' => addUTXOsToFund fuel' rest remainToFund feeRate fundNewFees
        end.

(** *** The funder on array contents

    [fund] follows [addUTXOsToFund] on the contents of the arrays; it is the
    function that the proofs reason about, and [addUTXOsToFund_fund] below
    shows that the code on the store computes it. *)

Definition ascending (a b : UTXO) : Z := value a - value b.
Definition descending (a b : UTXO) : Z := value b - value a.
Definition meets (threshold : Z) (utxo : UTXO) : bool := value utxo >=? threshold.

Definition change_of (selected : UTXO) (amountToFund newFees : Z) (fundNewFees : bool) : Z :=
  let change := value selected - amountToFund in
  if fundNewFees then change - newFees else change.

Definition remain_of (largest : UTXO) (amountToFund newFees : Z) (fundNewFees : bool) : Z :=
  let remainToFund := amountToFund - value largest in
  if fundNewFees then remainToFund + newFees else remainToFund.

Fixpoint fund (fuel : nat) (txB : TransactionBuilder) (pool : list UTXO)
    (amountToFund feeRate : Z) (fundNewFees : bool)
  : option (outcome Z * TransactionBuilder) :=
  match pool with
  | [] => Some (Threw (NotEnoughFundsError amountToFund), txB)
  | _ :: _ =>
      let nf := newFees txB feeRate in
      let threshold := utxoThreshhold amountToFund nf fundNewFees in
      match sort_by ascending (List.filter (meets threshold) pool) with
      | selected :: _ =>
          Some (Returned (change_of selected amountToFund nf fundNewFees),
                addInput txB (tx_hash selected) (tx_output_n selected))
      | [] =>
          match sort_by descending pool with
          | largest :: rest =>
              if nf >=? value largest
              then Some (Threw (NotEnoughFundsError amountToFund), txB)
              else
                match fuel with
                | O => None
                | S fuel' =>
                    fund fuel' (addInput txB (tx_hash largest) (tx_output_n largest))
                         rest (remain_of largest amountToFund nf fundNewFees)
                         feeRate fundNewFees
                end
          | [] => Some (Threw TypeError, txB)
          end
      end
  end.

(** Contents of the caller's array after a call. *)
Definition pool_after (pool : list UTXO) (threshold : Z) : list UTXO :=
  match List.filter (meets threshold) pool with
  | [] => sort_by descending pool
  | _ :: _ => pool
  end.

(** Every array of [w] other than [utxos] is the same in [w']. *)
Definition frame (utxos : ref) (w w' : world) : Prop :=
  forall r a, r <> utxos -> arrays w !! r = Some a -> arrays w' !! r = Some a.

(** Sum of the values of a pool. *)
Definition total_value (pool : list UTXO) : Z :=
  fold_right (fun utxo agg => value utxo + agg) 0 pool.

(** The fee for adding every UTXO of the pool as an input. *)
Definition worstCaseFee (txB : TransactionBuilder) (pool : list UTXO) (feeRate : Z) : Z :=
  feeRate * (estimateTXBytes (inr txB) (length pool) 0
             - estimateTXBytes (inr txB) 0 0).

(** *** The chain of recursive calls *)



(** ** Signer driver *)

(** [TransactionSigner]: the capability [signTransaction(txB, i)].  A call
    leaves the builder in a new state and either completes or fails with an
    exception of the signer's own. *)
Record TransactionSigner : Type := {
  signTransaction : TransactionBuilder -> nat -> outcome unit * TransactionBuilder
}.

(** An entry [{index, signer}] of [otherSigners]. *)
Record signerPair : Type := {
  index : Z;
  signer : TransactionSigner
}.

(** The state of a run of the driver: the builder, and the calls of
    [signTransaction] made so far, in the order they were made. *)
Record signing : Type := {
  txB : TransactionBuilder;
  invoked : list (TransactionSigner * nat)
}.

(** [for (let i = 0; i < txInner.ins.length; i++) await signerArray[i].signTransaction(txB, i)];
    the array of signers is a map from property keys to signers, and a
    missing entry is [undefined], whose method call is a [TypeError]. *)
Fixpoint sign_loop (fuel : nat) (signerArray : gmap Z TransactionSigner) (i : nat)
    (s : signing) : option (outcome unit * signing) :=
  match fuel with
  | O => None
  | S fuel' =>
      if (i <? length (ins (getTransactionInsideBuilder (txB s))))%nat then
        match signerArray !! Z.of_nat i with
        | None => Some (Threw TypeError, s)
        | Some sg =>
            let called := invoked s ++ [(sg, i)] in
            match signTransaction sg (txB s) i with
            | (Returned _, txB') =>
                sign_loop fuel' signerArray (i + 1) {| txB := txB'; invoked := called |}
            | (Threw e, txB') =>
                Some (Threw e, {| txB := txB'; invoked := called |})
            end
        end
      else Some (Returned tt, s)
  end.

(** [signInputs]: [otherSigners] is optional ([None] when absent); the
    assignment [signerArray[p.index] = p.signer] writes the property
    [p.index] of the array, whatever the index. *)
Definition signInputs (fuel : nat) (txB0 : TransactionBuilder)
    (defaultSigner : TransactionSigner) (otherSigners : option (list signerPair))
  : option (outcome TransactionBuilder * signing) :=
  let txInner := getTransactionInsideBuilder txB0 in
  let signerArray : gmap Z TransactionSigner :=
    map_seqZ 0 (map (fun _ => defaultSigner) (ins txInner)) in
  let signerArray :=
    match otherSigners with
    | Some others =>
        fold_left (fun arr signerPair => <[index signerPair := signer signerPair]> arr)
                  others signerArray
    | None => signerArray
    end in
  match sign_loop fuel signerArray 0 {| txB := txB0; invoked := [] |} with
  | Some (Returned _, s) => Some (Returned (txB s), s)
  | Some (Threw e, s) => Some (Threw e, s)
  | None => None
  end.

(** *** The assignment of signers and the calls in order *)

(** The signer assigned to input [i]: the default, replaced by every
    override that lists [i], in the order of the list. *)
Definition assigned (defaultSigner : TransactionSigner) (others : list signerPair)
    (i : nat) : TransactionSigner :=
  fold_left (fun current sp => if index sp =? Z.of_nat i then signer sp else current)
            others defaultSigner.

(** The calls of a list, one after the other, each on the builder that the
    call before it left, up to the first that fails. *)
Fixpoint run_in_order (calls : list (TransactionSigner * nat)) (s : signing)
  : outcome unit * signing :=
  match calls with
  | [] => (Returned tt, s)
  | (sg, i) :: calls' =>
      let called := invoked s ++ [(sg, i)] in
      match signTransaction sg (txB s) i with
      | (Returned _, txB') => run_in_order calls' {| txB := txB'; invoked := called |}
      | (Threw e, txB') => (Threw e, {| txB := txB'; invoked := called |})
      end
  end.

(** The calls for the inputs [0 .. n-1], each with its assigned signer. *)
Definition schedule (defaultSigner : TransactionSigner) (others : list signerPair)
    (n : nat) : list (TransactionSigner * nat) :=
  map (fun i => (assigned defaultSigner others i, i)) (seq 0 n).

(** A signer attaches scripts: it leaves the number of inputs as it is. *)
Definition keeps_inputs (sg : TransactionSigner) : Prop :=
  forall txB0 i,
    length (ins (__tx (snd (signTransaction sg txB0 i)))) = length (ins (__tx txB0)).

(** [otherSigners.forEach(p => { signerArray[p.index] = p.signer })]. *)
Definition overridden (others : list signerPair) (arr : gmap Z TransactionSigner)
  : gmap Z TransactionSigner :=
  fold_left (fun arr signerPair => <[index signerPair := signer signerPair]> arr) others arr.

(** ** Concrete inputs *)

Definition empty_builder : TransactionBuilder :=
  {| __tx := {| ins := []; outs := [] |} |}.

Definition world_of (pool : list UTXO) : world :=
  {| builder := empty_builder; arrays := [pool] |}.



Definition pool_3_1_2 : list UTXO :=
  [ {| value := 3000; tx_hash := "aa"; tx_output_n := 0 |};
    {| value := 1000; tx_hash := "bb"; tx_output_n := 1 |};
    {| value := 2000; tx_hash := "cc"; tx_output_n := 0 |} ].

(** A signer that attaches the unlocking script [sig] to the input it is
    asked to sign, and a signer that fails. *)
Definition attach_script (sig : Buffer) (txB0 : TransactionBuilder) (i : nat)
  : TransactionBuilder :=
  {| __tx := {| ins := alter (fun input => {| in_hash := in_hash input;
                                              in_index := in_index input;
                                              in_script := Some sig |})
                             i (ins (__tx txB0));
                outs := outs (__tx txB0) |} |}.

Definition script_signer (sig : Buffer) : TransactionSigner :=
  {| signTransaction := fun txB0 i => (Returned tt, attach_script sig txB0 i) |}.

Definition failing_signer : TransactionSigner :=
  {| signTransaction := fun txB0 _ => (Threw (Error "device locked"), txB0) |}.

(** A builder with three unsigned inputs. *)
Definition three_inputs : TransactionBuilder :=
  addInput (addInput (addInput empty_builder "aa" 0) "bb" 1) "cc" 0.

Definition sig_default : Buffer := [Byte.x30; Byte.x44].
Definition sig_other : Buffer := [Byte.x30; Byte.x45].

(** ** Notions for the further properties *)

(** The input that [addInput(utxo.tx_hash, utxo.tx_output_n)] appends. *)
Definition input_of (utxo : UTXO) : TxInput :=
  {| in_hash := tx_hash utxo; in_index := tx_output_n utxo; in_script := Some [] |}.

(** An input whose script is missing, empty, or of the pay-to-pubkey-hash
    size; an output likewise. *)
Definition standard_input (i : TxInput) : Prop :=
  match in_script i with
  | None => True
  | Some s => buffer_length s = 0 \/ buffer_length s = TX_INPUT_PUBKEYHASH
  end.

Definition standard_output (o : TxOutput) : Prop :=
  match out_script o with
  | None => True
  | Some s => buffer_length s = 0 \/ buffer_length s = TX_OUTPUT_PUBKEYHASH
  end.

(** The fee that a call funds for the inputs it adds. *)
Definition fees_funded (fundNewFees : bool) (added : nat) (newFees : Z) : Z :=
  if fundNewFees then Z.of_nat added * newFees else 0.

(** The values of a list of UTXOs do not increase along the list. *)
Definition descending_values (l : list UTXO) : Prop :=
  StronglySorted (fun a b => value b <= value a) l.

(** The base-40 reading of a list of characters, continuing from [acc]. *)
Definition positional (l : list ascii) (acc : Z) : Z :=
  fold_left (fun acc c => acc * 40 + B40.digit_value c) l acc.

(** A string that does not begin with the digit ['0']. *)
Definition no_leading_zero (input : string) : Prop :=
  match input with
  | String c _ => c <> "0"%char
  | EmptyString => True
  end.

(** The pool [3000; 1000; 2000] in another order, with other hashes. *)
Definition pool_1_2_3 : list UTXO :=
  [ {| value := 1000; tx_hash := "dd"; tx_output_n := 3 |};
    {| value := 2000; tx_hash := "ee"; tx_output_n := 0 |};
    {| value := 3000; tx_hash := "ff"; tx_output_n := 1 |} ].

(** ** The code's numbers: double-precision arithmetic

    A finite double is an integer multiple of [2^-1074]; [scaled] is that
    integer.  The result of an operation is the exact result rounded to the
    nearest double, ties to the even significand (53 bits, with the fixed
    grid [2^-1074] below the normal range).  Infinities, NaN and the sign of
    zero are left out: the numbers of this model are the finite doubles, and
    an operation whose result exceeds the largest double ([2^1024]) is
    outside it. *)

Module F64.

Record t : Type := { scaled : Z }.

(** The multiple of [2^k] nearest to [n], ties to the even multiple. *)
Definition nearest_even (k n : Z) : Z :=
  let p := 2 ^ k in
  let q := n / p in
  let r := n mod p in
  if 2 * r <? p then q * p
  else if 2 * r >? p then (q + 1) * p
  else if Z.even q then q * p else (q + 1) * p.

(** Rounding to 53 significant bits, on a grid no finer than [2^kmin]. *)
Definition round (kmin n : Z) : Z :=
  nearest_even (Z.max kmin (Z.log2 (Z.abs n) - 52)) n.

Definition of_Z (n : Z) : t := {| scaled := round 0 (n * 2 ^ 1074) |}.

(** The double [m * 2^e], for a significand of at most 53 bits and
    [e >= -1074]. *)
Definition of_parts (m e : Z) : t := {| scaled := m * 2 ^ (e + 1074) |}.

Definition add (x y : t) : t := {| scaled := round 0 (scaled x + scaled y) |}.

Definition sub (x y : t) : t := {| scaled := round 0 (scaled x - scaled y) |}.

Definition mul (x y : t) : t :=
  {| scaled := round 1074 (scaled x * scaled y) / 2 ^ 1074 |}.

Definition geb (x y : t) : bool := scaled x >=? scaled y.

(** The sign of a double, as the sort reads the result of a comparator. *)
Definition sign (x : t) : Z := Z.sgn (scaled x).

(** The integers that doubles hold exactly, with room for the open bound. *)
Definition safe (n : Z) : Prop := Z.abs n < 2 ^ 53.

End F64.

(** *** [addUTXOsToFund] in the code's arithmetic

    [UTXO64], [newFees64] and [fund64] are [UTXO], [newFees] and [fund] with
    the values, the amount, the fee rate and every sum, difference, product
    and comparison of them in doubles, as the code computes them.  The byte
    counts of [estimateTXBytes] are small integers, which doubles add
    exactly.  As in [fund], the arrays are passed by value: [filter] is
    [List.filter], [sort] is [sort_by] with the comparator of the code,
    [utxos[0]] and [utxos.slice(1)] are the head and the tail of the sorted
    pool; the returned value, the error and the builder do not depend on
    which array object holds the sorted pool. *)

Record UTXO64 : Type := {
  value64 : F64.t;
  tx_hash64 : string;
  tx_output_n64 : Z
}.

Inductive exn64 : Type :=
| NotEnoughFundsError64 (amount : F64.t)
| TypeError64.

Inductive outcome64 : Type :=
| Returned64 (change : F64.t)
| Threw64 (e : exn64).

(** [feeRate * (estimateTXBytes(txBuilderIn, 1, 0) - estimateTXBytes(txBuilderIn, 0, 0))] *)
Definition newFees64 (txBuilderIn : TransactionBuilder) (feeRate : F64.t) : F64.t :=
  F64.mul feeRate
    (F64.sub (F64.of_Z (estimateTXBytes (inr txBuilderIn) 1 0))
             (F64.of_Z (estimateTXBytes (inr txBuilderIn) 0 0))).

Definition utxoThreshhold64 (amountToFund newFees : F64.t) (fundNewFees : bool) : F64.t :=
  if fundNewFees then F64.add amountToFund newFees else amountToFund.

(** [(a, b) => a.value - b.value] and [(a, b) => b.value - a.value] *)
Definition ascending64 (a b : UTXO64) : Z := F64.sign (F64.sub (value64 a) (value64 b)).
Definition descending64 (a b : UTXO64) : Z := F64.sign (F64.sub (value64 b) (value64 a)).

Definition meets64 (threshold : F64.t) (utxo : UTXO64) : bool :=
  F64.geb (value64 utxo) threshold.

Definition change_of64 (selected : UTXO64) (amountToFund newFees : F64.t)
    (fundNewFees : bool) : F64.t :=
  let change := F64.sub (value64 selected) amountToFund in
  if fundNewFees then F64.sub change newFees else change.

Definition remain_of64 (largest : UTXO64) (amountToFund newFees : F64.t)
    (fundNewFees : bool) : F64.t :=
  let remainToFund := F64.sub amountToFund (value64 largest) in
  if fundNewFees then F64.add remainToFund newFees else remainToFund.

Fixpoint fund64 (fuel : nat) (txB : TransactionBuilder) (pool : list UTXO64)
    (amountToFund feeRate : F64.t) (fundNewFees : bool)
  : option (outcome64 * TransactionBuilder) :=
  match pool with
  | [] => Some (Threw64 (NotEnoughFundsError64 amountToFund), txB)
  | _ :: _ =>
      let nf := newFees64 txB feeRate in
      let threshold := utxoThreshhold64 amountToFund nf fundNewFees in
      match sort_by ascending64 (List.filter (meets64 threshold) pool) with
      | selected :: _ =>
          Some (Returned64 (change_of64 selected amountToFund nf fundNewFees),
                addInput txB (tx_hash64 selected) (tx_output_n64 selected))
      | [] =>
          match sort_by descending64 pool with
          | largest :: rest =>
              if F64.geb nf (value64 largest)
              then Some (Threw64 (NotEnoughFundsError64 amountToFund), txB)
              else
                match fuel with
                | O => None
                | S fuel' =>
                    fund64 fuel' (addInput txB (tx_hash64 largest) (tx_output_n64 largest))
                           rest (remain_of64 largest amountToFund nf fundNewFees)
                           feeRate fundNewFees
                end
          | [] => Some (Threw64 TypeError64, txB)
          end
      end
  end.

(** A pool of integer values, as doubles. *)
Definition to64 (utxo : UTXO) : UTXO64 :=
  {| value64 := F64.of_Z (value utxo);
     tx_hash64 := tx_hash utxo;
     tx_output_n64 := tx_output_n utxo |}.

Definition outcome_to64 (o : outcome Z) : outcome64 :=
  match o with
  | Returned change => Returned64 (F64.of_Z change)
  | Threw (NotEnoughFundsError amount) => Threw64 (NotEnoughFundsError64 (F64.of_Z amount))
  | Threw _ => Threw64 TypeError64
  end.

(** Integer inputs on which the code's arithmetic is exact: a non-negative
    fee rate and non-negative values, with the amount, the total value of the
    pool and the fee of one more input than the pool has together below
    [2^53], and a size estimate below [2^53]. *)
Definition exact_inputs (txB : TransactionBuilder) (pool : list UTXO)
    (amountToFund feeRate : Z) : Prop :=
  0 <= feeRate
  /\ (forall utxo, In utxo pool -> 0 <= value utxo)
  /\ Z.abs amountToFund + total_value pool
     + (Z.of_nat (length pool) + 1) * (feeRate * 148) < 2 ^ 53
  /\ estimateTXBytes (inr txB) (length pool + 1) 0 < 2 ^ 53.

(** The doubles nearest to [99/148] and to [1/3]. *)
Definition rate_99_148 : F64.t := F64.of_parts 6025085987968637 (-53).
Definition rate_1_3 : F64.t := F64.of_parts 6004799503160661 (-54).

Definition utxo64 (v : Z) (h : string) : UTXO64 :=
  {| value64 := F64.of_Z v; tx_hash64 := h; tx_output_n64 := 0 |}.

(** * Part II: the properties *)

(** ** Byte-size estimator *)

Section Estimator.

Lemma fold_left_add_shift {A : Type} (f : A -> Z) (l : list A) (a : Z) :
  fold_left (fun a x => a + f x) l a = a + fold_left (fun a x => a + f x) l 0.
Proof.
  revert a. induction l as [|x l IH]; intros a; simpl; [lia|].
  rewrite (IH (a + f x)), (IH (0 + f x)). lia.
Qed.

Lemma fold_left_add_app {A : Type} (f : A -> Z) (l1 l2 : list A) :
  fold_left (fun a x => a + f x) (l1 ++ l2) 0
  = fold_left (fun a x => a + f x) l1 0 + fold_left (fun a x => a + f x) l2 0.
Proof. rewrite fold_left_app. apply fold_left_add_shift. Qed.

Lemma fold_left_add_dummies (f : option txPoint -> Z) (n : nat) :
  fold_left (fun a x => a + f x) (dummies n) 0 = Z.of_nat n * f None.
Proof.
  unfold dummies. induction n as [|n IH]; [reflexivity|].
  cbn [replicate fold_left]. rewrite fold_left_add_shift, IH. lia.
Qed.

Lemma estimateTXBytes_additional txIn (a b : nat) :
  estimateTXBytes txIn a b
  = estimateTXBytes txIn 0 0 + Z.of_nat a * inputBytes None
    + Z.of_nat b * outputBytes None.
Proof.
  unfold estimateTXBytes, transactionBytes.
  rewrite !fold_left_add_app, !fold_left_add_dummies. lia.
Qed.

End Estimator.

(** C5: the estimate grows by [41 + 107] bytes for each additional input and
    by [9 + 25] bytes for each additional output, whatever the transaction
    already holds; the additional items are [null] placeholders appended
    after the existing ones, and a placeholder is always charged the standard
    pay-to-pubkey-hash estimate. *)
Theorem estimateTXBytes_delta (txIn : Transaction + TransactionBuilder) (a b : nat) :
  estimateTXBytes txIn a b - estimateTXBytes txIn 0 0
  = Z.of_nat a * (41 + 107) + Z.of_nat b * (9 + 25)
  /\ estimateTXBytes txIn a b
     = transactionBytes
         (map (fun i => Some (input_point i)) (ins (getTransaction txIn))
          ++ replicate a None)
         (map (fun o => Some (output_point o)) (outs (getTransaction txIn))
          ++ replicate b None)
  /\ inputBytes None = 41 + 107
  /\ outputBytes None = 9 + 25.
Proof.
  split; [|split; [reflexivity|split; reflexivity]].
  rewrite estimateTXBytes_additional.
  change (inputBytes None) with 148. change (outputBytes None) with 34. lia.
Qed.

(** ** Base-40 decoder *)

Section Base40.

Import B40.

(** *** The sum of the digit values is the positional value *)

Lemma imap_sum_scale (k : Z) (g : nat -> ascii -> Z) (ds : list ascii) :
  fold_left (fun agg cur => agg + cur) (imap (fun e c => k * g e c) ds) 0
  = k * fold_left (fun agg cur => agg + cur) (imap g ds) 0.
Proof.
  revert g. induction ds as [|c ds IH]; intros g; [simpl; lia|].
  rewrite !imap_cons. cbn [fold_left].
  rewrite (fold_left_add_shift (fun x => x) _ (0 + k * g O c)).
  rewrite (fold_left_add_shift (fun x => x) _ (0 + g O c)).
  change (fold_left (fun a x => a + x) (imap ((fun e c0 => k * g e c0) ∘ S) ds) 0)
    with (fold_left (fun agg cur => agg + cur)
            (imap (fun e c0 => k * (g ∘ S) e c0) ds) 0).
  rewrite IH. lia.
Qed.

Lemma digit_sum_positional (l : list ascii) :
  fold_left (fun agg cur => agg + cur)
    (imap (fun (exponent : nat) character =>
             indexOf characters character * 40 ^ Z.of_nat exponent) (rev l)) 0
  = fold_left (fun acc c => acc * 40 + digit_value c) l 0.
Proof.
  rewrite <- (rev_involutive l) at 2.
  induction (rev l) as [|c ds IH]; [reflexivity|].
  rewrite imap_cons. cbn [fold_left rev].
  rewrite fold_left_app. cbn [fold_left]. rewrite <- IH.
  rewrite (fold_left_add_shift (fun x => x)).
  erewrite (imap_ext _ (fun e c0 => 40 * (indexOf characters c0 * 40 ^ Z.of_nat e))).
  2:{ intros i x _. cbn [compose]. rewrite Nat2Z.inj_succ, Z.pow_succ_r by lia. lia. }
  rewrite imap_sum_scale. unfold digit_value. simpl (Z.of_nat 0). lia.
Qed.

Lemma decodeB40_value (input : string) :
  decodeB40 input = Returned (toString16 (base40_value input) 2).
Proof. unfold decodeB40, base40_value. now rewrite digit_sum_positional. Qed.

Lemma base40_value_nonneg (input : string) :
  over_alphabet input -> 0 <= base40_value input.
Proof.
  unfold over_alphabet, base40_value.
  assert (G : forall l acc, 0 <= acc -> forallb in_alphabet l = true ->
              0 <= fold_left (fun acc c => acc * 40 + digit_value c) l acc).
  { induction l as [|c l IH]; intros acc Hacc Hl; [exact Hacc|].
    cbn [forallb] in Hl. apply andb_prop in Hl as [Hc Hl].
    cbn [fold_left]. apply IH; [|exact Hl].
    unfold in_alphabet in Hc. apply Z.leb_le in Hc. lia. }
  intros H. apply G; [lia|exact H].
Qed.

(** *** The hexadecimal rendering *)

Lemma hex_digit_value_digit (d : N) :
  (d < 16)%N -> hex_digit_value (hex_digit d) = Some (Z.of_N d).
Proof.
  intros H.
  assert (E : exists k, (k < 16)%nat /\ d = N.of_nat k).
  { exists (N.to_nat d). split; [lia|now rewrite N2Nat.id]. }
  destruct E as (k & Hk & ->).
  do 16 (destruct k as [|k]; [reflexivity|]). lia.
Qed.

Lemma hex_digit_nonzero (d : N) :
  (0 < d < 16)%N -> hex_digit d <> "0"%char.
Proof.
  intros H.
  assert (E : exists k, (0 < k < 16)%nat /\ d = N.of_nat k).
  { exists (N.to_nat d). split; [lia|now rewrite N2Nat.id]. }
  destruct E as (k & Hk & ->).
  destruct k as [|k]; [lia|].
  do 15 (destruct k as [|k]; [discriminate|]). lia.
Qed.

Lemma size_div16 (n : N) :
  n <> 0%N -> (N.to_nat (N.size (n / 16)%N) < N.to_nat (N.size n))%nat.
Proof.
  intros Hn.
  destruct (N.eq_dec (n / 16)%N 0%N) as [E|E].
  - rewrite E. rewrite (N.size_log2 n) by exact Hn. simpl. lia.
  - rewrite !N.size_log2 by assumption.
    change 16%N with (2 ^ 4)%N. rewrite <- N.shiftr_div_pow2, N.log2_shiftr.
    assert (16 <= n)%N.
    { destruct (N.lt_ge_cases n 16) as [L|L]; [|exact L].
      exfalso. apply E. now apply N.div_small. }
    assert (4 <= N.log2 n)%N by (change 4%N with (N.log2 16); now apply N.log2_le_mono).
    lia.
Qed.

Lemma hex_digits_value (fuel : nat) :
  forall (n : N) (out : string) (acc : Z),
    (N.to_nat (N.size n) <= fuel)%nat ->
    hex_value_from acc (hex_digits fuel n out)
    = hex_value_from (acc * 16 ^ Z.of_nat (hex_length fuel n) + Z.of_N n) out.
Proof.
  induction fuel as [|fuel IH]; intros n out acc Hf.
  - assert (n = 0%N) as ->.
    { destruct n as [|p]; [reflexivity|]. simpl in Hf. lia. }
    simpl. f_equal. lia.
  - cbn [hex_digits hex_length]. destruct (N.eqb_spec n 0) as [->|Hn].
    + f_equal. simpl. lia.
    + rewrite IH by (pose proof (size_div16 n Hn); lia).
      cbn [hex_value_from].
      rewrite hex_digit_value_digit by (apply N.mod_lt; discriminate).
      f_equal. rewrite Nat2Z.inj_succ, Z.pow_succ_r by lia.
      pose proof (N.div_mod n 16%N ltac:(discriminate)) as D.
      assert (Z.of_N n = 16 * Z.of_N (n / 16)%N + Z.of_N (n mod 16)%N) by lia.
      lia.
Qed.

Lemma hex_value_to_hex (n : N) : hex_value (to_hex n) = Some (Z.of_N n).
Proof.
  unfold hex_value, to_hex. destruct (N.eqb_spec n 0) as [->|Hn]; [reflexivity|].
  rewrite hex_digits_value by lia. simpl. f_equal.
Qed.

Lemma hex_digits_head (fuel : nat) :
  forall (n : N) (out : string),
    n <> 0%N -> (N.to_nat (N.size n) <= fuel)%nat ->
    exists c rest, hex_digits fuel n out = String c rest /\ c <> "0"%char.
Proof.
  induction fuel as [|fuel IH]; intros n out Hn Hf.
  - destruct n as [|p]; [congruence|]. simpl in Hf. lia.
  - cbn [hex_digits]. destruct (N.eqb_spec n 0) as [E|_]; [congruence|].
    destruct (N.eq_dec (n / 16)%N 0%N) as [E|E].
    + rewrite E.
      assert (hex_digits fuel 0%N (String (hex_digit (n mod 16)%N) out)
              = String (hex_digit (n mod 16)%N) out) as -> by (destruct fuel; reflexivity).
      eexists _, _. split; [reflexivity|]. apply hex_digit_nonzero.
      pose proof (N.div_mod n 16%N ltac:(discriminate)).
      pose proof (N.mod_lt n 16%N ltac:(discriminate)). lia.
    + apply IH; [exact E|]. pose proof (size_div16 n Hn). lia.
Qed.

Lemma to_hex_head (n : N) :
  to_hex n = "0" \/ exists c rest, to_hex n = String c rest /\ c <> "0"%char.
Proof.
  unfold to_hex. destruct (N.eqb_spec n 0) as [->|Hn]; [now left|].
  right. apply hex_digits_head; [exact Hn|lia].
Qed.

Lemma hex_value_from_zero (s : string) (acc : Z) :
  hex_value_from acc (String "0" s) = hex_value_from (acc * 16) s.
Proof. cbn [hex_value_from]. change (hex_digit_value "0") with (Some 0). f_equal. lia. Qed.

Lemma zero_pad_2 (out : string) :
  zero_pad 2 2 out
  = if (String.length out mod 2 =? 0)%nat then out else String "0" out.
Proof.
  cbn [zero_pad]. cbn [String.length].
  destruct (Nat.eqb_spec (String.length out mod 2) 0) as [E|E]; [reflexivity|].
  assert (H : (String.length out mod 2 = 1)%nat)
    by (pose proof (Nat.mod_upper_bound (String.length out) 2); lia).
  destruct (Nat.eqb_spec (S (String.length out) mod 2) 0) as [E'|E']; [reflexivity|].
  exfalso. apply E'.
  change (S (String.length out)) with (1 + String.length out)%nat.
  rewrite Nat.Div0.add_mod, H. reflexivity.
Qed.

Lemma toString16_2_nonneg (v : Z) :
  0 <= v ->
  hex_value (toString16 v 2) = Some v /\ byte_aligned_canonical (toString16 v 2).
Proof.
  intros Hv. unfold toString16.
  destruct (Z.ltb_spec v 0) as [?|_]; [lia|].
  rewrite zero_pad_2.
  pose proof (hex_value_to_hex (Z.abs_N v)) as Hval.
  rewrite N2Z.inj_abs_N, Z.abs_eq in Hval by exact Hv.
  unfold byte_aligned_canonical.
  destruct (Nat.eqb_spec (String.length (to_hex (Z.abs_N v)) mod 2) 0) as [E|E].
  - split; [exact Hval|]. split; [exact E|].
    destruct (to_hex_head (Z.abs_N v)) as [Z0|H].
    + rewrite Z0 in E. discriminate.
    + right. left. exact H.
  - split.
    + unfold hex_value. rewrite hex_value_from_zero. exact Hval.
    + split.
      * cbn [String.length].
        pose proof (Nat.mod_upper_bound (String.length (to_hex (Z.abs_N v))) 2).
        change (S (String.length (to_hex (Z.abs_N v))))
          with (1 + String.length (to_hex (Z.abs_N v)))%nat.
        rewrite Nat.Div0.add_mod.
        replace (String.length (to_hex (Z.abs_N v)) mod 2)%nat with 1%nat by lia.
        reflexivity.
      * destruct (to_hex_head (Z.abs_N v)) as [Z0|(c & rest & Hc & Hnz)].
        -- rewrite Z0. now left.
        -- right. right. exists c, rest. now rewrite Hc.
Qed.

Lemma outside_alphabet_digit (input : string) :
  outside_alphabet input ->
  exists c, In c (list_ascii_of_string input) /\ digit_value c = -1.
Proof.
  unfold outside_alphabet. intros H.
  apply existsb_exists in H as (c & Hin & Hc).
  exists c. split; [exact Hin|].
  unfold in_alphabet in Hc. apply negb_true_iff in Hc. apply Z.leb_gt in Hc.
  assert (G : forall s i, 0 <= i -> indexOf_from i s c = -1 \/ i <= indexOf_from i s c).
  { induction s as [|x s IH]; intros i Hi; [now left|].
    cbn [indexOf_from]. destruct (Ascii.eqb x c); [right; lia|].
    destruct (IH (i + 1) ltac:(lia)) as [->|L]; [now left|right; lia]. }
  unfold digit_value, indexOf in *.
  destruct (G characters 0 ltac:(lia)) as [E|L]; [exact E|lia].
Qed.

End Base40.

(** C4 (as stated, refuted): a character outside the alphabet is not an
    error for [decodeB40].  On ["1!"] the call returns ["27"]: the index [-1]
    of ['!'] enters the sum as the digit [-1], giving [1 * 40 - 1 = 39]; on
    ["!"] it returns ["-01"]. *)
Lemma decodeB40_outside_alphabet_returns :
  B40.outside_alphabet "1!"
  /\ B40.decodeB40 "1!" = Returned "27"%string
  /\ B40.decodeB40 "!" = Returned "-01"%string
  /\ ~ is_error (B40.decodeB40 "1!")
  /\ ~ (forall input, B40.outside_alphabet input -> is_error (B40.decodeB40 input)).
Proof.
  assert (O : B40.outside_alphabet "1!") by reflexivity.
  assert (N : ~ is_error (B40.decodeB40 "1!")) by (intros H; exact H).
  split; [exact O|]. split; [reflexivity|]. split; [reflexivity|]. split; [exact N|].
  intros H. exact (N (H _ O)).
Qed.

(** C4 (amended): for every input that contains a character outside the
    alphabet, [decodeB40] raises no error and returns the [toString(16, 2)]
    rendering of the base-40 sum in which every out-of-alphabet character
    counts as the digit [-1]. *)
Theorem decodeB40_outside_alphabet (input : string) :
  B40.outside_alphabet input ->
  B40.decodeB40 input = Returned (B40.toString16 (B40.base40_value input) 2)
  /\ ~ is_error (B40.decodeB40 input)
  /\ exists c, In c (list_ascii_of_string input) /\ B40.digit_value c = -1.
Proof.
  intros H. rewrite decodeB40_value. split; [reflexivity|].
  split; [intros E; exact E|]. now apply outside_alphabet_digit.
Qed.

Lemma decodeB40_outside_alphabet_witness :
  B40.outside_alphabet "a!c"
  /\ B40.decodeB40 "a!c" = Returned (B40.toString16 (B40.base40_value "a!c") 2).
Proof.
  split; [reflexivity|].
  apply (decodeB40_outside_alphabet "a!c"). reflexivity.
Defined.

(** C8 (as stated, refuted): the output is not the hexadecimal
    representation padded to at least two digits.  ["7b"] reads as
    [7 * 40 + 11 = 291 = 0x123]; the claim gives ["123"], the code returns
    ["0123"]. *)
Lemma decodeB40_not_min_width :
  B40.over_alphabet "7b"
  /\ B40.base40_value "7b" = 291
  /\ B40.decode_min2 "7b" = "123"%string
  /\ B40.decodeB40 "7b" = Returned "0123"%string
  /\ B40.decodeB40 "7b" <> Returned (B40.decode_min2 "7b").
Proof. do 4 (split; [reflexivity|]). discriminate. Qed.

(** C8 (amended): for every string over the alphabet, [decodeB40] returns
    the lowercase hexadecimal digits of the base-40 value of the string (most
    significant digit first, a character's digit value being its index in the
    alphabet), left-padded with a zero where needed to reach an even number of
    digits (whole bytes, so at least two digits); in particular
    [decodeB40("0") = "00"] and [decodeB40("10") = "28"]. *)
Theorem decodeB40_hex (input : string) :
  B40.over_alphabet input ->
  (exists r, B40.decodeB40 input = Returned r
             /\ B40.hex_value r = Some (B40.base40_value input)
             /\ B40.byte_aligned_canonical r)
  /\ B40.decodeB40 "0" = Returned "00"%string
  /\ B40.decodeB40 "10" = Returned "28"%string.
Proof.
  intros H. split; [|split; reflexivity].
  exists (B40.toString16 (B40.base40_value input) 2).
  split; [apply decodeB40_value|].
  apply toString16_2_nonneg. now apply base40_value_nonneg.
Qed.

Lemma decodeB40_hex_witness :
  B40.over_alphabet "stacks.id"
  /\ exists r, B40.decodeB40 "stacks.id" = Returned r
               /\ B40.hex_value r = Some (B40.base40_value "stacks.id")
               /\ B40.byte_aligned_canonical r.
Proof.
  split; [reflexivity|].
  apply (decodeB40_hex "stacks.id"). reflexivity.
Defined.

(** ** UTXO funder *)

Lemma addUTXOsToFund_unfold fuel utxos amountToFund feeRate fundNewFees :
  addUTXOsToFund fuel utxos amountToFund feeRate fundNewFees
  = (len <- array_length utxos ;;
     if len =? 0 then throw (NotEnoughFundsError amountToFund)
     else
       txBuilderIn <- get_builder ;;
       let newFees := newFees txBuilderIn feeRate in
       let utxoThreshhold := utxoThreshhold amountToFund newFees fundNewFees in
       goodUtxos <- array_filter utxos (fun utxo => value utxo >=? utxoThreshhold) ;;
       goodLen <- array_length goodUtxos ;;
       if goodLen >? 0 then
         array_sort goodUtxos (fun a b => value a - value b) ;;;
         selected <- array_get goodUtxos 0 ;;
         let change := value selected - amountToFund in
         let change := if fundNewFees then change - newFees else change in
         builder_addInput (tx_hash selected) (tx_output_n selected) ;;;
         ret change
       else
         array_sort utxos (fun a b => value b - value a) ;;;
         largest <- array_get utxos 0 ;;
         if newFees >=? value largest then throw (NotEnoughFundsError amountToFund)
         else
           builder_addInput (tx_hash largest) (tx_output_n largest) ;;;
           let remainToFund := amountToFund - value largest in
           let remainToFund := if fundNewFees then remainToFund + newFees else remainToFund in
           rest <- array_slice utxos 1 ;;
           match fuel with
           | O => out_of_fuel
           | S fuel' => addUTXOsToFund fuel' rest remainToFund feeRate fundNewFees
           end).
Proof. destruct fuel; reflexivity. Qed.

Section SortBy.

Context {A : Type} (cmp : A -> A -> Z).

Lemma insert_by_Permutation (x : A) (l : list A) :
  Permutation (x :: l) (insert_by cmp x l).
Proof.
  induction l as [|y l IH]; [reflexivity|].
  cbn [insert_by]. destruct (cmp x y <=? 0); [reflexivity|].
  rewrite perm_swap. now apply perm_skip.
Qed.

Lemma sort_by_Permutation (l : list A) : Permutation l (sort_by cmp l).
Proof.
  induction l as [|x l IH]; [reflexivity|].
  cbn [sort_by fold_right]. fold (sort_by cmp l).
  rewrite <- insert_by_Permutation. now apply perm_skip.
Qed.

Lemma sort_by_length (l : list A) : length (sort_by cmp l) = length l.
Proof. symmetry. apply Permutation_length, sort_by_Permutation. Qed.

Lemma sort_by_nil_inv (l : list A) : sort_by cmp l = [] -> l = [].
Proof.
  intros H. apply Permutation_nil. rewrite <- H. symmetry. apply sort_by_Permutation.
Qed.

End SortBy.

Section SortByKey.

Context {A : Type} (cmp : A -> A -> Z) (key : A -> Z).
Hypothesis cmp_key : forall x y, cmp x y <= 0 <-> key x <= key y.

Let key_le (x y : A) : Prop := key x <= key y.

Lemma insert_by_sorted (x : A) (l : list A) :
  StronglySorted key_le l -> StronglySorted key_le (insert_by cmp x l).
Proof.
  induction 1 as [|y l Hs IH Hy]; cbn [insert_by].
  - constructor; constructor.
  - destruct (Z.leb_spec (cmp x y) 0) as [L|G].
    + apply cmp_key in L. constructor; [now constructor|].
      constructor; [exact L|].
      eapply Forall_impl; [exact Hy|]. unfold key_le. intros; lia.
    + assert (key y <= key x) by (pose proof (cmp_key x y); lia).
      constructor; [exact IH|].
      eapply Permutation_Forall; [apply insert_by_Permutation|].
      constructor; assumption.
Qed.

Lemma sort_by_sorted (l : list A) : StronglySorted key_le (sort_by cmp l).
Proof.
  induction l as [|x l IH]; [constructor|].
  cbn [sort_by fold_right]. now apply insert_by_sorted.
Qed.

Lemma sort_by_head (l : list A) (h : A) (t : list A) :
  sort_by cmp l = h :: t -> In h l /\ forall x, In x l -> key h <= key x.
Proof.
  intros E. pose proof (sort_by_sorted l) as S. pose proof (sort_by_Permutation cmp l) as P.
  rewrite E in S, P. split.
  - eapply Permutation_in; [symmetry; exact P|now left].
  - intros x Hx. eapply Permutation_in in Hx; [|exact P].
    destruct Hx as [->|Hx]; [lia|].
    apply StronglySorted_inv in S as [_ S].
    rewrite List.Forall_forall in S. now apply S.
Qed.

End SortByKey.

Lemma ascending_head (l : list UTXO) (h : UTXO) (t : list UTXO) :
  sort_by ascending l = h :: t ->
  In h l /\ forall x, In x l -> value h <= value x.
Proof.
  apply (sort_by_head ascending value). unfold ascending. intros; lia.
Qed.

Lemma descending_head (l : list UTXO) (h : UTXO) (t : list UTXO) :
  sort_by descending l = h :: t ->
  In h l /\ forall x, In x l -> value x <= value h.
Proof.
  intros E.
  destruct (sort_by_head descending (fun u => - value u)
              ltac:(unfold descending; intros; lia) l h t E) as [Hin Hle].
  split; [exact Hin|]. intros x Hx. specialize (Hle x Hx). simpl in Hle. lia.
Qed.

(** *** The code on the store computes [fund] *)

Lemma bind_returned {A B : Type} (c : M A) (k : A -> M B) (w w' : world) (a : A) :
  c w = Some (Returned a, w') -> bind c k w = k a w'.
Proof. unfold bind. now intros ->. Qed.

Lemma array_length_run (r : ref) (w : world) (a : list UTXO) :
  arrays w !! r = Some a ->
  array_length r w = Some (Returned (Z.of_nat (length a)), w).
Proof. intros H. unfold array_length, bind, array_read. now rewrite H. Qed.

Lemma array_filter_run (r : ref) (p : UTXO -> bool) (w : world) (a : list UTXO) :
  arrays w !! r = Some a ->
  array_filter r p w
  = Some (Returned (length (arrays w)),
          {| builder := builder w; arrays := arrays w ++ [List.filter p a] |}).
Proof. intros H. unfold array_filter, bind, array_read. now rewrite H. Qed.

Lemma array_sort_run (r : ref) (cmp : UTXO -> UTXO -> Z) (w : world) (a : list UTXO) :
  arrays w !! r = Some a ->
  array_sort r cmp w
  = Some (Returned tt,
          {| builder := builder w; arrays := <[r := sort_by cmp a]> (arrays w) |}).
Proof. intros H. unfold array_sort, bind, array_read. now rewrite H. Qed.

Lemma array_get_run (r : ref) (i : nat) (w : world) (a : list UTXO) (u : UTXO) :
  arrays w !! r = Some a -> a !! i = Some u ->
  array_get r i w = Some (Returned u, w).
Proof. intros H Hu. unfold array_get, bind, array_read. now rewrite H, Hu. Qed.

Lemma array_slice_run (r : ref) (start : nat) (w : world) (a : list UTXO) :
  arrays w !! r = Some a ->
  array_slice r start w
  = Some (Returned (length (arrays w)),
          {| builder := builder w; arrays := arrays w ++ [drop start a] |}).
Proof. intros H. unfold array_slice, bind, array_read. now rewrite H. Qed.

Lemma lookup_alloc (l : list (list UTXO)) (x : list UTXO) :
  (l ++ [x]) !! length l = Some x.
Proof. now apply list_lookup_middle. Qed.

Section OneCall.

Variables (feeRate : Z) (fundNewFees : bool) (fuel : nat).
Variables (w : world) (utxos : ref) (pool : list UTXO) (amountToFund : Z).
Hypothesis Hpool : arrays w !! utxos = Some pool.

Let nf : Z := newFees (builder w) feeRate.
Let thr : Z := utxoThreshhold amountToFund nf fundNewFees.

Lemma addUTXOsToFund_empty :
  pool = [] ->
  addUTXOsToFund fuel utxos amountToFund feeRate fundNewFees w
  = Some (Threw (NotEnoughFundsError amountToFund), w).
Proof.
  intros E. rewrite addUTXOsToFund_unfold.
  rewrite (bind_returned _ _ _ _ _ (array_length_run _ _ _ Hpool)).
  now rewrite E.
Qed.

(** The call up to the test [goodUtxos.length > 0], for a pool that is not
    empty. *)
Lemma addUTXOsToFund_filtered :
  pool <> [] ->
  addUTXOsToFund fuel utxos amountToFund feeRate fundNewFees w
  = (let goodUtxos := length (arrays w) in
     if Z.of_nat (length (List.filter (meets thr) pool)) >? 0 then
       array_sort goodUtxos ascending ;;;
       selected <- array_get goodUtxos 0 ;;
       builder_addInput (tx_hash selected) (tx_output_n selected) ;;;
       ret (change_of selected amountToFund nf fundNewFees)
     else
       array_sort utxos descending ;;;
       largest <- array_get utxos 0 ;;
       if nf >=? value largest then throw (NotEnoughFundsError amountToFund)
       else
         builder_addInput (tx_hash largest) (tx_output_n largest) ;;;
         rest <- array_slice utxos 1 ;;
         match fuel with
         | O => out_of_fuel
         | S fuel' =>
             addUTXOsToFund fuel' rest (remain_of largest amountToFund nf fundNewFees)
                            feeRate fundNewFees
         end)
      {| builder := builder w;
         arrays := arrays w ++ [List.filter (meets thr) pool] |}.
Proof.
  intros Hne. rewrite addUTXOsToFund_unfold.
  rewrite (bind_returned _ _ _ _ _ (array_length_run _ _ _ Hpool)).
  replace (Z.of_nat (length pool) =? 0) with false
    by (symmetry; apply Z.eqb_neq; destruct pool; [congruence|cbn [length]; lia]).
  rewrite (bind_returned get_builder _ w w (builder w) eq_refl); cbv zeta.
  rewrite (bind_returned _ _ _ _ _ (array_filter_run _ _ _ _ Hpool)).
  erewrite (bind_returned (array_length _));
    [|apply array_length_run; cbn [arrays]; apply lookup_alloc].
  reflexivity.
Qed.

Lemma addUTXOsToFund_sufficient_run (selected : UTXO) (others : list UTXO) :
  sort_by ascending (List.filter (meets thr) pool) = selected :: others ->
  addUTXOsToFund fuel utxos amountToFund feeRate fundNewFees w
  = Some (Returned (change_of selected amountToFund nf fundNewFees),
          {| builder := addInput (builder w) (tx_hash selected) (tx_output_n selected);
             arrays := <[length (arrays w) := selected :: others]>
                         (arrays w ++ [List.filter (meets thr) pool]) |}).
Proof.
  intros Hs.
  assert (Hlt : (utxos < length (arrays w))%nat) by (eapply lookup_lt_Some; exact Hpool).
  assert (Hne : pool <> []) by (intros E; rewrite E in Hs; discriminate).
  rewrite (addUTXOsToFund_filtered Hne); cbv zeta.
  replace (Z.of_nat (length (List.filter (meets thr) pool)) >? 0) with true.
  2:{ symmetry. apply Z.gtb_lt. rewrite <- (sort_by_length ascending), Hs.
      cbn [length]. lia. }
  erewrite (bind_returned (array_sort _ _));
    [|apply array_sort_run; cbn [arrays]; apply lookup_alloc].
  cbn [builder arrays]. rewrite Hs.
  erewrite (bind_returned (array_get _ _));
    [|apply (array_get_run _ 0%nat _ (selected :: others) selected); [|reflexivity];
      cbn [arrays]; apply list_lookup_insert_eq; rewrite length_app; cbn [length]; lia].
  reflexivity.
Qed.

Lemma addUTXOsToFund_sufficient (selected : UTXO) (others : list UTXO) :
  sort_by ascending (List.filter (meets thr) pool) = selected :: others ->
  exists w',
    addUTXOsToFund fuel utxos amountToFund feeRate fundNewFees w
    = Some (Returned (change_of selected amountToFund nf fundNewFees), w')
    /\ builder w' = addInput (builder w) (tx_hash selected) (tx_output_n selected)
    /\ arrays w' !! utxos = Some pool
    /\ frame utxos w w'.
Proof.
  intros Hs.
  assert (Hlt : (utxos < length (arrays w))%nat) by (eapply lookup_lt_Some; exact Hpool).
  rewrite (addUTXOsToFund_sufficient_run _ _ Hs).
  eexists; split; [reflexivity|]; cbn [builder arrays].
  split; [reflexivity|]; split.
  - rewrite list_lookup_insert_ne by lia. now apply lookup_app_l_Some.
  - intros r a _ Ha; cbn [arrays].
    assert (r < length (arrays w))%nat by (eapply lookup_lt_Some; exact Ha).
    rewrite list_lookup_insert_ne by lia. now apply lookup_app_l_Some.
Qed.

(** The call up to the test [newFees >= largest.value], when no UTXO meets
    the threshold. *)
Lemma addUTXOsToFund_sorted (largest : UTXO) (rest : list UTXO) :
  List.filter (meets thr) pool = [] ->
  sort_by descending pool = largest :: rest ->
  addUTXOsToFund fuel utxos amountToFund feeRate fundNewFees w
  = (if nf >=? value largest then throw (NotEnoughFundsError amountToFund)
     else
       builder_addInput (tx_hash largest) (tx_output_n largest) ;;;
       rest <- array_slice utxos 1 ;;
       match fuel with
       | O => out_of_fuel
       | S fuel' =>
           addUTXOsToFund fuel' rest (remain_of largest amountToFund nf fundNewFees)
                          feeRate fundNewFees
       end)
      {| builder := builder w;
         arrays := <[utxos := largest :: rest]> (arrays w ++ [[]]) |}.
Proof.
  intros Hgood Hs.
  assert (Hlt : (utxos < length (arrays w))%nat) by (eapply lookup_lt_Some; exact Hpool).
  assert (Hne : pool <> []) by (intros E; rewrite E in Hs; discriminate).
  rewrite (addUTXOsToFund_filtered Hne); cbv zeta. rewrite Hgood.
  change (Z.of_nat (length []) >? 0) with false; cbv iota.
  erewrite (bind_returned (array_sort _ _));
    [|apply array_sort_run; cbn [arrays]; apply lookup_app_l_Some; exact Hpool].
  cbn [builder arrays]. rewrite Hs.
  erewrite (bind_returned (array_get _ _));
    [|apply (array_get_run _ 0%nat _ (largest :: rest) largest); [|reflexivity];
      cbn [arrays]; apply list_lookup_insert_eq; rewrite length_app; cbn [length]; lia].
  reflexivity.
Qed.

Lemma addUTXOsToFund_fee (largest : UTXO) (rest : list UTXO) :
  List.filter (meets thr) pool = [] ->
  sort_by descending pool = largest :: rest ->
  (nf >=? value largest) = true ->
  addUTXOsToFund fuel utxos amountToFund feeRate fundNewFees w
  = Some (Threw (NotEnoughFundsError amountToFund),
          {| builder := builder w;
             arrays := <[utxos := largest :: rest]> (arrays w ++ [[]]) |}).
Proof.
  intros Hgood Hs Hfee. rewrite (addUTXOsToFund_sorted _ _ Hgood Hs).
  now rewrite Hfee.
Qed.

Lemma addUTXOsToFund_recurse (largest : UTXO) (rest : list UTXO) :
  List.filter (meets thr) pool = [] ->
  sort_by descending pool = largest :: rest ->
  (nf >=? value largest) = false ->
  addUTXOsToFund fuel utxos amountToFund feeRate fundNewFees w
  = match fuel with
    | O => None
    | S fuel' =>
        addUTXOsToFund fuel' (S (length (arrays w)))
          (remain_of largest amountToFund nf fundNewFees) feeRate fundNewFees
          {| builder := addInput (builder w) (tx_hash largest) (tx_output_n largest);
             arrays := <[utxos := largest :: rest]> (arrays w ++ [[]]) ++ [rest] |}
    end.
Proof.
  intros Hgood Hs Hfee.
  assert (Hlt : (utxos < length (arrays w))%nat) by (eapply lookup_lt_Some; exact Hpool).
  rewrite (addUTXOsToFund_sorted _ _ Hgood Hs). rewrite Hfee.
  unfold bind at 1, builder_addInput at 1; cbn [builder arrays].
  erewrite (bind_returned (array_slice _ _));
    [|apply array_slice_run; cbn [arrays]; apply list_lookup_insert_eq;
      rewrite length_app; cbn [length]; lia].
  cbn [builder arrays drop].
  rewrite length_insert, length_app; cbn [length].
  replace (length (arrays w) + 1)%nat with (S (length (arrays w))) by lia.
  destruct fuel; reflexivity.
Qed.

End OneCall.

Lemma addUTXOsToFund_fund (feeRate : Z) (fundNewFees : bool) (fuel : nat) :
  forall (w : world) (utxos : ref) (pool : list UTXO) (amountToFund : Z),
    arrays w !! utxos = Some pool ->
    match fund fuel (builder w) pool amountToFund feeRate fundNewFees with
    | Some (o, txB') =>
        exists w', addUTXOsToFund fuel utxos amountToFund feeRate fundNewFees w = Some (o, w')
                   /\ builder w' = txB'
                   /\ arrays w' !! utxos
                      = Some (pool_after pool
                                (utxoThreshhold amountToFund (newFees (builder w) feeRate)
                                                fundNewFees))
                   /\ frame utxos w w'
    | None => addUTXOsToFund fuel utxos amountToFund feeRate fundNewFees w = None
    end.
Proof.
  induction fuel as [|fuel IH]; intros w utxos pool amountToFund Hpool.
  all: assert (Hlt : (utxos < length (arrays w))%nat) by (eapply lookup_lt_Some; exact Hpool).
  all: destruct pool as [|u0 pool0];
    [ cbn [fund]; exists w; rewrite (addUTXOsToFund_empty _ _ _ _ _ _ _ Hpool eq_refl);
      repeat split; [exact Hpool|intros r a _ H; exact H] |].
  all: cbn [fund]; unfold pool_after.
  all: set (pool := u0 :: pool0) in *.
  all: set (nf := newFees (builder w) feeRate).
  all: set (thr := utxoThreshhold amountToFund nf fundNewFees).
  all: destruct (sort_by ascending (List.filter (meets thr) pool)) as [|selected others] eqn:Hs.
  2,4: match goal with
       | |- context [addUTXOsToFund ?f _ _ _ _ _] =>
           destruct (addUTXOsToFund_sufficient feeRate fundNewFees f w utxos pool amountToFund
                       Hpool selected others Hs) as (w' & -> & Hb & Ha & Hf)
       end;
       exists w'; split; [reflexivity|]; split; [exact Hb|]; split; [|exact Hf];
       destruct (List.filter (meets thr) pool);
       [apply (f_equal (@length UTXO)) in Hs; discriminate|exact Ha].
  all: apply sort_by_nil_inv in Hs; rewrite Hs.
  all: destruct (sort_by descending pool) as [|largest rest] eqn:Hd;
    [apply sort_by_nil_inv in Hd; discriminate|].
  all: fold nf; destruct (nf >=? value largest) eqn:Hfee.
  1,3: erewrite addUTXOsToFund_fee by eassumption;
       eexists; split; [reflexivity|]; cbn [builder arrays]; split; [reflexivity|]; split;
       [ apply list_lookup_insert_eq; rewrite length_app; cbn [length]; lia
       | intros r a Hr Ha; cbn [arrays]; rewrite list_lookup_insert_ne by congruence;
         now apply lookup_app_l_Some ].
  all: erewrite addUTXOsToFund_recurse by eassumption.
  - reflexivity.
  - set (w1 := {| builder := addInput (builder w) (tx_hash largest) (tx_output_n largest);
                  arrays := <[utxos := largest :: rest]> (arrays w ++ [[]]) ++ [rest] |}).
    set (r1 := S (length (arrays w))).
    assert (Hr1 : arrays w1 !! r1 = Some rest).
    { unfold w1, r1; cbn [arrays].
      replace (S (length (arrays w)))
        with (length (<[utxos := largest :: rest]> (arrays w ++ [[]])))
        by (rewrite length_insert, length_app; cbn [length]; lia).
      apply lookup_alloc. }
    specialize (IH w1 r1 rest (remain_of largest amountToFund nf fundNewFees) Hr1).
    change (builder w1) with (addInput (builder w) (tx_hash largest) (tx_output_n largest)) in IH.
    destruct (fund fuel _ rest _ feeRate fundNewFees) as [[o txB']|]; [|exact IH].
    destruct IH as (w' & Hrun & Hb & _ & Hf).
    exists w'. split; [exact Hrun|]. split; [exact Hb|]. split.
    + apply Hf; [lia|]. unfold w1; cbn [arrays].
      apply lookup_app_l_Some. apply list_lookup_insert_eq.
      rewrite length_app; cbn [length]; lia.
    + intros r a Hr Ha.
      assert (r < length (arrays w))%nat by (eapply lookup_lt_Some; exact Ha).
      apply Hf; [lia|]. unfold w1; cbn [arrays].
      apply lookup_app_l_Some. rewrite list_lookup_insert_ne by congruence.
      now apply lookup_app_l_Some.
Qed.

(** A result of the code on the store is the result of [fund]. *)
Lemma addUTXOsToFund_fund_inv (feeRate : Z) (fundNewFees : bool) (fuel : nat)
    (w w' : world) (utxos : ref) (pool : list UTXO) (amountToFund : Z) (o : outcome Z) :
  arrays w !! utxos = Some pool ->
  addUTXOsToFund fuel utxos amountToFund feeRate fundNewFees w = Some (o, w') ->
  fund fuel (builder w) pool amountToFund feeRate fundNewFees = Some (o, builder w')
  /\ arrays w' !! utxos
     = Some (pool_after pool
               (utxoThreshhold amountToFund (newFees (builder w) feeRate) fundNewFees))
  /\ frame utxos w w'.
Proof.
  intros Hpool Hrun.
  pose proof (addUTXOsToFund_fund feeRate fundNewFees fuel w utxos pool amountToFund Hpool) as R.
  destruct (fund fuel (builder w) pool amountToFund feeRate fundNewFees) as [[o2 b2]|].
  - destruct R as (w2 & Hrun2 & Hb & Ha & Hf).
    rewrite Hrun in Hrun2. injection Hrun2 as -> ->. now subst b2.
  - rewrite Hrun in R. discriminate.
Qed.

(** *** Facts about [fund] *)

Lemma newFees_const (txB : TransactionBuilder) (feeRate : Z) :
  newFees txB feeRate = feeRate * 148.
Proof.
  unfold newFees. rewrite (estimateTXBytes_additional (inr txB) 1 0).
  change (inputBytes None) with 148. f_equal. lia.
Qed.

Lemma worstCaseFee_const (txB : TransactionBuilder) (pool : list UTXO) (feeRate : Z) :
  worstCaseFee txB pool feeRate = feeRate * 148 * Z.of_nat (length pool).
Proof.
  unfold worstCaseFee. rewrite (estimateTXBytes_additional (inr txB) (length pool) 0).
  change (inputBytes None) with 148. lia.
Qed.

Lemma total_value_Permutation (l l' : list UTXO) :
  Permutation l l' -> total_value l = total_value l'.
Proof.
  induction 1 as [|x l l' _ IH|x y l|l l' l'' _ IH1 _ IH2].
  - reflexivity.
  - cbn [total_value fold_right]. fold (total_value l) (total_value l'). lia.
  - cbn [total_value fold_right]. lia.
  - lia.
Qed.

Lemma total_value_bound (l : list UTXO) (top : Z) :
  (forall x, In x l -> value x <= top) ->
  total_value l <= Z.of_nat (length l) * top.
Proof.
  induction l as [|x l IH]; intros H; [cbn; lia|].
  cbn [total_value fold_right length]. fold (total_value l).
  pose proof (H x (or_introl eq_refl)).
  assert (total_value l <= Z.of_nat (length l) * top)
    by (apply IH; intros y Hy; apply H; now right).
  lia.
Qed.

Lemma filter_nil_below (threshold : Z) (pool : list UTXO) :
  List.filter (meets threshold) pool = [] ->
  forall x, In x pool -> value x < threshold.
Proof.
  intros H x Hx.
  destruct (Z.lt_ge_cases (value x) threshold) as [L|G]; [exact L|].
  assert (Hin : In x (List.filter (meets threshold) pool)).
  { apply List.filter_In. split; [exact Hx|]. unfold meets. apply Z.geb_le. lia. }
  rewrite H in Hin. destruct Hin.
Qed.

Lemma sufficient_head (threshold : Z) (pool : list UTXO) (selected : UTXO) (others : list UTXO) :
  sort_by ascending (List.filter (meets threshold) pool) = selected :: others ->
  In selected pool /\ threshold <= value selected
  /\ forall x, In x pool -> threshold <= value x -> value selected <= value x.
Proof.
  intros Hs. apply ascending_head in Hs as [Hin Hmin].
  apply List.filter_In in Hin as [Hin Hm]. unfold meets in Hm. apply Z.geb_le in Hm.
  split; [exact Hin|]. split; [exact Hm|].
  intros x Hx Hthr. apply Hmin. apply List.filter_In. split; [exact Hx|].
  unfold meets. apply Z.geb_le. lia.
Qed.

Lemma descending_tail (pool : list UTXO) (largest : UTXO) (rest : list UTXO) :
  sort_by descending pool = largest :: rest ->
  length pool = S (length rest)
  /\ total_value pool = value largest + total_value rest
  /\ forall x, In x rest -> In x pool.
Proof.
  intros Hs. pose proof (sort_by_Permutation descending pool) as P. rewrite Hs in P.
  split; [now rewrite (Permutation_length P)|].
  split; [now rewrite (total_value_Permutation _ _ P)|].
  intros x Hx. eapply Permutation_in; [symmetry; exact P|now right].
Qed.

(** Case analysis of one call of [fund] on a pool that is not empty. *)
Lemma fund_cases (fuel : nat) (txB : TransactionBuilder) (pool : list UTXO)
    (amountToFund feeRate : Z) (fundNewFees : bool) :
  pool <> [] ->
  let nf := newFees txB feeRate in
  let threshold := utxoThreshhold amountToFund nf fundNewFees in
  (exists selected others,
      sort_by ascending (List.filter (meets threshold) pool) = selected :: others
      /\ fund fuel txB pool amountToFund feeRate fundNewFees
         = Some (Returned (change_of selected amountToFund nf fundNewFees),
                 addInput txB (tx_hash selected) (tx_output_n selected)))
  \/ (exists largest rest,
        List.filter (meets threshold) pool = []
        /\ sort_by descending pool = largest :: rest
        /\ ((nf >= value largest
             /\ fund fuel txB pool amountToFund feeRate fundNewFees
                = Some (Threw (NotEnoughFundsError amountToFund), txB))
            \/ (nf < value largest
                /\ fund fuel txB pool amountToFund feeRate fundNewFees
                   = match fuel with
                     | O => None
                     | S fuel' =>
                         fund fuel' (addInput txB (tx_hash largest) (tx_output_n largest))
                              rest (remain_of largest amountToFund nf fundNewFees)
                              feeRate fundNewFees
                     end))).
Proof.
  intros Hne nf threshold. destruct pool as [|u0 pool0]; [congruence|].
  set (pool := u0 :: pool0) in *.
  destruct (sort_by ascending (List.filter (meets threshold) pool))
    as [|selected others] eqn:Hs.
  - right. apply sort_by_nil_inv in Hs.
    destruct (sort_by descending pool) as [|largest rest] eqn:Hd;
      [apply sort_by_nil_inv in Hd; discriminate|].
    exists largest, rest. split; [exact Hs|]. split; [reflexivity|].
    destruct (Z.geb_spec nf (value largest)) as [G|L].
    + left. split; [lia|]. destruct fuel; cbn [fund]; fold nf; fold threshold;
        fold pool; rewrite Hs, Hd; cbn [sort_by fold_right];
        apply Z.geb_le in G; fold nf in G |- *; now rewrite G.
    + right. split; [lia|]. destruct fuel; cbn [fund]; fold nf; fold threshold;
        fold pool; rewrite Hs, Hd; cbn [sort_by fold_right];
        assert (G : (nf >=? value largest) = false)
          by (rewrite Z.geb_leb; apply Z.leb_gt; lia);
        now rewrite G.
  - left. exists selected, others. split; [reflexivity|].
    destruct fuel; cbn [fund]; fold nf; fold threshold; fold pool; now rewrite Hs.
Qed.


Lemma fund_total (feeRate : Z) (fundNewFees : bool) (fuel : nat) :
  forall (txB : TransactionBuilder) (pool : list UTXO) (amountToFund : Z),
    (length pool <= fuel)%nat ->
    exists o txB',
      fund fuel txB pool amountToFund feeRate fundNewFees = Some (o, txB')
      /\ ((exists change, o = Returned change)
          \/ (exists amount, o = Threw (NotEnoughFundsError amount))).
Proof.
  induction fuel as [|fuel IH]; intros txB pool amountToFund Hlen.
  - destruct pool; [|cbn [length] in Hlen; lia].
    eexists _, _. split; [reflexivity|]. right. now eexists.
  - destruct pool as [|u0 pool0].
    { eexists _, _. split; [reflexivity|]. right. now eexists. }
    destruct (fund_cases (S fuel) txB (u0 :: pool0) amountToFund feeRate fundNewFees
                ltac:(discriminate))
      as [(sel & oth & _ & ->)|(lg & rest & _ & Hd & [[_ ->]|[_ ->]])].
    + eexists _, _. split; [reflexivity|]. left. now eexists.
    + eexists _, _. split; [reflexivity|]. right. now eexists.
    + apply IH. apply descending_tail in Hd as [Hl _]. lia.
Qed.

(** C7: with a recursion budget that covers the pool, a call ends, with a
    change amount or with [NotEnoughFundsError]; a call on the empty pool
    fails at once, whatever the budget; and a call that recurses passes on an
    array that is one element shorter than its own. *)
Theorem addUTXOsToFund_terminates (fuel : nat) (w : world) (utxos : ref)
    (pool : list UTXO) (amountToFund feeRate : Z) (fundNewFees : bool) :
  arrays w !! utxos = Some pool ->
  (length pool <= fuel)%nat ->
  (exists o w',
      addUTXOsToFund fuel utxos amountToFund feeRate fundNewFees w = Some (o, w')
      /\ ((exists change, o = Returned change)
          \/ (exists amount, o = Threw (NotEnoughFundsError amount))))
  /\ (pool = [] ->
      forall budget,
        addUTXOsToFund budget utxos amountToFund feeRate fundNewFees w
        = Some (Threw (NotEnoughFundsError amountToFund), w))
  /\ (forall largest rest,
        let nf := newFees (builder w) feeRate in
        List.filter (meets (utxoThreshhold amountToFund nf fundNewFees)) pool = [] ->
        sort_by descending pool = largest :: rest ->
        nf < value largest ->
        exists w1 utxos1,
          arrays w1 !! utxos1 = Some rest
          /\ length pool = S (length rest)
          /\ forall budget,
               addUTXOsToFund (S budget) utxos amountToFund feeRate fundNewFees w
               = addUTXOsToFund budget utxos1
                   (remain_of largest amountToFund nf fundNewFees) feeRate fundNewFees w1).
Proof.
  intros Hpool Hlen. split; [|split].
  - destruct (fund_total feeRate fundNewFees fuel (builder w) pool amountToFund Hlen)
      as (o & txB' & Hf & Ho).
    pose proof (addUTXOsToFund_fund feeRate fundNewFees fuel w utxos pool amountToFund Hpool) as R.
    rewrite Hf in R. destruct R as (w' & Hrun & _). now exists o, w'.
  - intros E budget. now apply (addUTXOsToFund_empty _ _ _ _ _ pool).
  - intros largest rest nf Hgood Hd Hfee.
    assert (Hlt : (utxos < length (arrays w))%nat) by (eapply lookup_lt_Some; exact Hpool).
    eexists _, (S (length (arrays w))). split; [|split].
    2:{ now apply descending_tail in Hd as [Hl _]. }
    2:{ intros budget.
        rewrite (addUTXOsToFund_recurse feeRate fundNewFees (S budget) w utxos pool
                   amountToFund Hpool largest rest Hgood Hd).
        - reflexivity.
        - fold nf. rewrite Z.geb_leb. apply Z.leb_gt. lia. }
    cbn [arrays].
    replace (S (length (arrays w)))
      with (length (<[utxos := largest :: rest]> (arrays w ++ [[]])))
      by (rewrite length_insert, length_app; cbn [length]; lia).
    apply lookup_alloc.
Qed.


(** Every change amount that [fund] returns is non-negative. *)
Lemma fund_change_nonneg (feeRate : Z) (fundNewFees : bool) (fuel : nat) :
  forall (txB txB' : TransactionBuilder) (pool : list UTXO) (amountToFund change : Z),
    fund fuel txB pool amountToFund feeRate fundNewFees = Some (Returned change, txB') ->
    0 <= change.
Proof.
  assert (Hsel : forall (amountToFund nf : Z) pool sel oth,
             sort_by ascending
               (List.filter (meets (utxoThreshhold amountToFund nf fundNewFees)) pool)
             = sel :: oth ->
             0 <= change_of sel amountToFund nf fundNewFees).
  { intros amountToFund nf pool sel oth Hs.
    apply sufficient_head in Hs as (_ & Hthr & _).
    unfold change_of, utxoThreshhold in *. destruct fundNewFees; lia. }
  induction fuel as [|fuel IH]; intros txB txB' pool amountToFund change Hf.
  - destruct pool as [|u0 pool0]; [discriminate|].
    destruct (fund_cases 0 txB (u0 :: pool0) amountToFund feeRate fundNewFees
                ltac:(discriminate))
      as [(sel & oth & Hs & E)|(lg & rest & _ & Hd & [[_ E]|[_ E]])];
      rewrite E in Hf; try discriminate.
    injection Hf as <- _. eapply Hsel; exact Hs.
  - destruct pool as [|u0 pool0]; [discriminate|].
    destruct (fund_cases (S fuel) txB (u0 :: pool0) amountToFund feeRate fundNewFees
                ltac:(discriminate))
      as [(sel & oth & Hs & E)|(lg & rest & _ & Hd & [[_ E]|[_ E]])];
      rewrite E in Hf; try discriminate.
    + injection Hf as <- _. eapply Hsel; exact Hs.
    + now apply IH in Hf.
Qed.

(** A pool that is worth the amount and the fee of all its inputs funds it. *)
Lemma fund_succeeds (feeRate : Z) (fundNewFees : bool) (fuel : nat) :
  0 < feeRate ->
  forall (txB : TransactionBuilder) (pool : list UTXO) (amountToFund : Z),
    (length pool <= fuel)%nat ->
    0 <= amountToFund ->
    pool <> [] \/ 0 < amountToFund ->
    total_value pool >= amountToFund + worstCaseFee txB pool feeRate ->
    exists change txB',
      fund fuel txB pool amountToFund feeRate fundNewFees = Some (Returned change, txB').
Proof.
  intros Hrate. induction fuel as [|fuel IH]; intros txB pool amountToFund Hlen Hamt Hne Htot.
  all: rewrite worstCaseFee_const in Htot.
  all: destruct pool as [|u0 pool0];
    [cbn in Htot; destruct Hne; [congruence|lia]|].
  1: cbn [length] in Hlen; lia.
  set (pool := u0 :: pool0) in *.
  destruct (fund_cases (S fuel) txB pool amountToFund feeRate fundNewFees
              ltac:(discriminate))
    as [(sel & oth & Hs & E)|(lg & rest & Hgood & Hd & Hcase)].
  { rewrite E. now eexists _, _. }
  rewrite newFees_const in Hgood, Hcase.
  pose proof (filter_nil_below _ _ Hgood) as Hbelow.
  destruct (descending_head _ _ _ Hd) as [Hlg Hmax].
  destruct (descending_tail _ _ _ Hd) as (Hl & Ht & _).
  pose proof (total_value_bound pool (value lg) Hmax) as Hb.
  pose proof (Hbelow lg Hlg) as Hlgthr.
  assert (Hn : 1 <= Z.of_nat (length pool)) by (unfold pool; cbn [length]; lia).
  assert (Hfee : feeRate * 148 < value lg).
  { unfold utxoThreshhold in Hlgthr. destruct fundNewFees; nia. }
  destruct Hcase as [[G _]|[_ E]]; [lia|].
  rewrite E. apply IH.
  - lia.
  - unfold remain_of, utxoThreshhold in *. destruct fundNewFees; lia.
  - right. unfold remain_of, utxoThreshhold in *. destruct fundNewFees; lia.
  - rewrite worstCaseFee_const.
    unfold remain_of, utxoThreshhold in *. rewrite Hl in Htot.
    destruct fundNewFees; nia.
Qed.

(** C1 (as stated, refuted): the empty pool is worth the amount [0] and the
    fee of its (zero) inputs, yet the call raises. *)
Lemma addUTXOsToFund_empty_pool_raises :
  let w := {| builder := empty_builder; arrays := [[]] |} in
  arrays w !! 0%nat = Some []
  /\ 0 <= 0 /\ 0 < 1
  /\ total_value [] >= 0 + worstCaseFee (builder w) [] 1
  /\ forall fuel fundNewFees,
       addUTXOsToFund fuel 0%nat 0 1 fundNewFees w
       = Some (Threw (NotEnoughFundsError 0), w).
Proof.
  cbv zeta. split; [reflexivity|]. split; [lia|]. split; [lia|].
  split; [vm_compute; discriminate|].
  intros fuel fundNewFees. now apply (addUTXOsToFund_empty _ _ _ _ _ []).
Qed.







(** ** Signer driver *)

Section SignerArray.

Variable defaultSigner : TransactionSigner.

Lemma overridden_lookup (others : list signerPair) :
  forall (arr : gmap Z TransactionSigner) (k : Z),
    overridden others arr !! k
    = fold_left (fun current sp => if index sp =? k then Some (signer sp) else current)
                others (arr !! k).
Proof.
  induction others as [|sp others IH]; intros arr k; [reflexivity|].
  cbn [overridden fold_left]. fold (overridden others (<[index sp := signer sp]> arr)).
  rewrite IH. f_equal. rewrite lookup_insert.
  destruct (Z.eqb_spec (index sp) k) as [E|E]; case_decide; congruence.
Qed.

Lemma fold_assigned_Some (others : list signerPair) (k : Z) :
  forall current : TransactionSigner,
    fold_left (fun current sp => if index sp =? k then Some (signer sp) else current)
              others (Some current)
    = Some (fold_left (fun current sp => if index sp =? k then signer sp else current)
                      others current).
Proof.
  induction others as [|sp others IH]; intros current; [reflexivity|].
  cbn [fold_left]. destruct (index sp =? k); apply IH.
Qed.

Lemma signerArray_lookup (inputs : list TxInput) (others : list signerPair) (i : nat) :
  (i < length inputs)%nat ->
  overridden others (map_seqZ 0 (map (fun _ => defaultSigner) inputs)) !! Z.of_nat i
  = Some (assigned defaultSigner others i).
Proof.
  intros Hi. rewrite overridden_lookup, lookup_map_seqZ_0 by lia.
  rewrite Nat2Z.id.
  assert (map (fun _ : TxInput => defaultSigner) inputs !! i = Some defaultSigner) as ->.
  { rewrite list_lookup_fmap. destruct (lookup_lt_is_Some_2 inputs i Hi) as [x ->].
    reflexivity. }
  apply fold_assigned_Some.
Qed.

Lemma assigned_default (others : list signerPair) (i : nat) :
  (forall sp, In sp others -> index sp <> Z.of_nat i) ->
  assigned defaultSigner others i = defaultSigner.
Proof.
  unfold assigned. generalize defaultSigner as current.
  induction others as [|sp others IH]; intros current H; [reflexivity|].
  cbn [fold_left].
  destruct (Z.eqb_spec (index sp) (Z.of_nat i)) as [E|_];
    [exfalso; exact (H sp (or_introl eq_refl) E)|].
  apply IH. intros sp' Hsp'. apply H. now right.
Qed.

Lemma assigned_app (l1 l2 : list signerPair) (i : nat) :
  assigned defaultSigner (l1 ++ l2) i = assigned (assigned defaultSigner l1 i) l2 i.
Proof. unfold assigned. now rewrite fold_left_app. Qed.

Lemma assigned_override (l1 l2 : list signerPair) (sp : signerPair) (i : nat) :
  index sp = Z.of_nat i ->
  (forall sp', In sp' l2 -> index sp' <> Z.of_nat i) ->
  assigned defaultSigner (l1 ++ sp :: l2) i = signer sp.
Proof.
  intros E H. rewrite assigned_app.
  change (assigned (assigned defaultSigner l1 i) (sp :: l2) i)
    with (assigned (if index sp =? Z.of_nat i then signer sp
                    else assigned defaultSigner l1 i) l2 i).
  rewrite (proj2 (Z.eqb_eq _ _) E).
  unfold assigned. generalize (signer sp) as current.
  induction l2 as [|sp' l2 IH]; intros current; [reflexivity|].
  cbn [fold_left].
  destruct (Z.eqb_spec (index sp') (Z.of_nat i)) as [E'|_];
    [exfalso; exact (H sp' (or_introl eq_refl) E')|].
  apply IH. intros sp'' Hsp''. apply H. now right.
Qed.

Lemma assigned_skip (l1 l2 : list signerPair) (sp : signerPair) (i : nat) :
  index sp <> Z.of_nat i ->
  assigned defaultSigner (l1 ++ sp :: l2) i = assigned defaultSigner (l1 ++ l2) i.
Proof.
  intros E. rewrite !assigned_app.
  change (assigned (assigned defaultSigner l1 i) (sp :: l2) i)
    with (assigned (if index sp =? Z.of_nat i then signer sp
                    else assigned defaultSigner l1 i) l2 i).
  now rewrite (proj2 (Z.eqb_neq _ _) E).
Qed.

Lemma assigned_keeps_inputs (others : list signerPair) (i : nat) :
  keeps_inputs defaultSigner ->
  Forall (fun sp => keeps_inputs (signer sp)) others ->
  keeps_inputs (assigned defaultSigner others i).
Proof.
  unfold assigned. generalize defaultSigner as current.
  induction others as [|sp others IH]; intros current Hc Ho; [exact Hc|].
  cbn [fold_left]. apply Forall_cons_1 in Ho as [Hsp Ho].
  apply IH; [|exact Ho]. now destruct (index sp =? Z.of_nat i).
Qed.

End SignerArray.

(** The loop makes the calls of the schedule in order. *)
Lemma sign_loop_run_in_order (signerArray : gmap Z TransactionSigner)
    (asg : nat -> TransactionSigner) (n : nat) :
  (forall j, (j < n)%nat -> signerArray !! Z.of_nat j = Some (asg j)) ->
  (forall j, (j < n)%nat -> keeps_inputs (asg j)) ->
  forall (fuel i : nat) (s : signing),
    length (ins (__tx (txB s))) = n ->
    (i <= n)%nat ->
    (n - i < fuel)%nat ->
    sign_loop fuel signerArray i s
    = Some (run_in_order (map (fun j => (asg j, j)) (seq i (n - i))) s).
Proof.
  intros Harr Hkeep. induction fuel as [|fuel IH]; intros i s Hn Hi Hfuel; [lia|].
  cbn [sign_loop]. unfold getTransactionInsideBuilder. rewrite Hn.
  destruct (Nat.ltb_spec i n) as [L|G].
  - rewrite (Harr i L).
    replace (n - i)%nat with (S (n - (i + 1))) by lia.
    cbn [seq map run_in_order].
    pose proof (Hkeep i L (txB s) i) as K.
    destruct (signTransaction (asg i) (txB s) i) as [[[]|e] txB'] eqn:E; [|reflexivity].
    replace (S i) with (i + 1)%nat by lia.
    apply IH; [cbn [txB]; cbn [snd] in K; lia|lia|lia].
  - replace (n - i)%nat with 0%nat by lia. reflexivity.
Qed.

(** What a run of calls in order leaves behind. *)
Lemma run_in_order_calls (calls : list (TransactionSigner * nat)) :
  forall (s s' : signing) (o : outcome unit),
    run_in_order calls s = (o, s') ->
    exists k,
      (k <= length calls)%nat
      /\ invoked s' = invoked s ++ take k calls
      /\ match o with
         | Returned _ => k = length calls
         | Threw e =>
             exists k' sg i before,
               k = S k'
               /\ calls !! k' = Some (sg, i)
               /\ run_in_order (take k' calls) s = (Returned tt, before)
               /\ fst (signTransaction sg (txB before) i) = Threw e
               /\ txB s' = snd (signTransaction sg (txB before) i)
         end.
Proof.
  induction calls as [|[sg i] calls IH]; intros s s' o Hrun.
  - cbn [run_in_order] in Hrun. injection Hrun as <- <-.
    exists 0%nat. split; [reflexivity|]. split; [now rewrite app_nil_r|reflexivity].
  - cbn [run_in_order] in Hrun.
    destruct (signTransaction sg (txB s) i) as [[[]|e] txB'] eqn:E.
    + destruct (IH _ _ _ Hrun) as (k & Hk & Hinv & Ho).
      exists (S k). split; [cbn [length]; lia|]. split.
      * rewrite Hinv. cbn [invoked take]. now rewrite <- app_assoc.
      * destruct o as [[]|e]; [cbn [length]; lia|].
        destruct Ho as (k' & sg' & i' & before & -> & Hl & Hb & He & Hs).
        exists (S k'), sg', i', before. split; [reflexivity|]. split; [exact Hl|].
        split; [|split; [exact He|exact Hs]].
        cbn [take run_in_order]. now rewrite E.
    + injection Hrun as <- <-.
      exists 1%nat. split; [cbn [length]; lia|]. split; [reflexivity|].
      exists 0%nat, sg, i, s. split; [reflexivity|]. split; [reflexivity|].
      split; [reflexivity|]. rewrite E. split; reflexivity.
Qed.

Lemma signInputs_schedule (fuel : nat) (txB0 : TransactionBuilder)
    (defaultSigner : TransactionSigner) (others : list signerPair) :
  keeps_inputs defaultSigner ->
  Forall (fun sp => keeps_inputs (signer sp)) others ->
  (length (ins (__tx txB0)) < fuel)%nat ->
  sign_loop fuel
    (overridden others (map_seqZ 0 (map (fun _ => defaultSigner) (ins (__tx txB0)))))
    0 {| txB := txB0; invoked := [] |}
  = Some (run_in_order (schedule defaultSigner others (length (ins (__tx txB0))))
                       {| txB := txB0; invoked := [] |}).
Proof.
  intros Hd Ho Hfuel. unfold schedule.
  pose proof (sign_loop_run_in_order
                (overridden others
                   (map_seqZ 0 (map (fun _ => defaultSigner) (ins (__tx txB0)))))
                (assigned defaultSigner others) (length (ins (__tx txB0)))) as H.
  rewrite (H ltac:(intros j Hj; now apply signerArray_lookup)
             ltac:(intros j _; now apply assigned_keeps_inputs)
             fuel 0%nat {| txB := txB0; invoked := [] |} eq_refl ltac:(lia) ltac:(lia)).
  now rewrite Nat.sub_0_r.
Qed.

Lemma signInputs_overridden (fuel : nat) (txB0 : TransactionBuilder)
    (defaultSigner : TransactionSigner) (others : list signerPair) :
  signInputs fuel txB0 defaultSigner (Some others)
  = match sign_loop fuel
            (overridden others
               (map_seqZ 0 (map (fun _ => defaultSigner) (ins (__tx txB0)))))
            0 {| txB := txB0; invoked := [] |} with
    | Some (Returned _, s) => Some (Returned (txB s), s)
    | Some (Threw e, s) => Some (Threw e, s)
    | None => None
    end.
Proof. reflexivity. Qed.

(** The outcome and the calls of [signInputs]. *)
Lemma signInputs_calls (fuel : nat) (txB0 : TransactionBuilder)
    (defaultSigner : TransactionSigner) (others : list signerPair) :
  let N := length (ins (__tx txB0)) in
  let calls := map (fun i => (assigned defaultSigner others i, i)) (seq 0 N) in
  let start := {| txB := txB0; invoked := [] |} in
  keeps_inputs defaultSigner ->
  Forall (fun sp => keeps_inputs (signer sp)) others ->
  (N < fuel)%nat ->
  exists (o : outcome TransactionBuilder) (s : signing) (k : nat),
    signInputs fuel txB0 defaultSigner (Some others) = Some (o, s)
    /\ (k <= N)%nat
    /\ invoked s = take k calls
    /\ match o with
       | Returned txB' => k = N /\ txB' = txB s
                          /\ run_in_order calls start = (Returned tt, s)
       | Threw e =>
           exists k' before,
             k = S k'
             /\ run_in_order (take k' calls) start = (Returned tt, before)
             /\ signTransaction (assigned defaultSigner others k') (txB before) k'
                = (Threw e, txB s)
       end.
Proof.
  intros N calls start Hd Ho Hfuel.
  pose proof (signInputs_schedule fuel txB0 defaultSigner others Hd Ho Hfuel) as Hloop.
  fold N in Hloop. change (schedule defaultSigner others N) with calls in Hloop.
  fold start in Hloop.
  destruct (run_in_order calls start) as [o s] eqn:Hrun.
  destruct (run_in_order_calls calls start s o Hrun) as (k & Hk & Hinv & Hout).
  assert (Hlen : length calls = N) by (unfold calls; now rewrite length_map, length_seq).
  rewrite signInputs_overridden. fold start. rewrite Hloop.
  destruct o as [[]|e].
  - exists (Returned (txB s)), s, k. split; [reflexivity|]. split; [lia|].
    split; [exact Hinv|]. split; [lia|]. split; reflexivity.
  - exists (Threw e), s, k. split; [reflexivity|]. split; [lia|].
    split; [exact Hinv|].
    destruct Hout as (k' & sg & i & before & -> & Hl & Hb & He & Hs).
    exists k', before. split; [reflexivity|]. split; [exact Hb|].
    unfold calls in Hl. rewrite list_lookup_fmap in Hl.
    destruct (seq 0 N !! k') as [j|] eqn:Hj; [|discriminate].
    apply lookup_seq in Hj as [-> _]. cbn in Hl. injection Hl as <- <-.
    rewrite Hs.
    destruct (signTransaction (assigned defaultSigner others k') (txB before) k')
      as [o1 b1].
    cbn [fst snd] in *. now rewrite He.
Qed.

(** C6: for signers that leave the number of inputs as it is, [signInputs]
    calls, for the indices [0 .. N-1] in ascending order, the signer assigned
    to each index (the default, or the override that lists the index), each
    call on the builder that the call before it left; the calls stop at the
    first signer that fails, whose exception is the outcome of [signInputs],
    so that no signer of a later index is called. *)
Theorem signInputs_in_order (fuel : nat) (txB0 : TransactionBuilder)
    (defaultSigner : TransactionSigner) (others : list signerPair) :
  let N := length (ins (__tx txB0)) in
  let calls := map (fun i => (assigned defaultSigner others i, i)) (seq 0 N) in
  let start := {| txB := txB0; invoked := [] |} in
  keeps_inputs defaultSigner ->
  Forall (fun sp => keeps_inputs (signer sp)) others ->
  (N < fuel)%nat ->
  (forall i, (forall sp, In sp others -> index sp <> Z.of_nat i) ->
             assigned defaultSigner others i = defaultSigner)
  /\ (forall i l1 sp l2,
        others = l1 ++ sp :: l2 -> index sp = Z.of_nat i ->
        (forall sp', In sp' l2 -> index sp' <> Z.of_nat i) ->
        assigned defaultSigner others i = signer sp)
  /\ signInputs fuel txB0 defaultSigner None = signInputs fuel txB0 defaultSigner (Some [])
  /\ exists (o : outcome TransactionBuilder) (s : signing) (k : nat),
       signInputs fuel txB0 defaultSigner (Some others) = Some (o, s)
       /\ (k <= N)%nat
       /\ invoked s = take k calls
       /\ match o with
          | Returned txB' => k = N /\ txB' = txB s
                             /\ run_in_order calls start = (Returned tt, s)
          | Threw e =>
              exists k' before,
                k = S k'
                /\ run_in_order (take k' calls) start = (Returned tt, before)
                /\ signTransaction (assigned defaultSigner others k') (txB before) k'
                   = (Threw e, txB s)
          end.
Proof.
  intros N calls start Hd Ho Hfuel.
  split; [intros i; apply assigned_default|].
  split; [intros i l1 sp l2 -> E H; now apply assigned_override|].
  split; [reflexivity|].
  exact (signInputs_calls fuel txB0 defaultSigner others Hd Ho Hfuel).
Qed.

(** Two arrays of signers that agree on the indices of the inputs drive the
    same loop. *)
Lemma sign_loop_agree (arr1 arr2 : gmap Z TransactionSigner) (n : nat) :
  (forall j, (j < n)%nat -> arr1 !! Z.of_nat j = arr2 !! Z.of_nat j) ->
  (forall j sg, (j < n)%nat -> arr2 !! Z.of_nat j = Some sg -> keeps_inputs sg) ->
  forall (fuel i : nat) (s : signing),
    length (ins (__tx (txB s))) = n ->
    sign_loop fuel arr1 i s = sign_loop fuel arr2 i s.
Proof.
  intros Hagree Hkeep. induction fuel as [|fuel IH]; intros i s Hn; [reflexivity|].
  cbn [sign_loop]. unfold getTransactionInsideBuilder. rewrite Hn.
  destruct (Nat.ltb_spec i n) as [L|G]; [|reflexivity].
  rewrite (Hagree i L).
  destruct (arr2 !! Z.of_nat i) as [sg|] eqn:E; [|reflexivity].
  pose proof (Hkeep i sg L E (txB s) i) as K.
  destruct (signTransaction sg (txB s) i) as [[[]|e] txB'] eqn:Es; [|reflexivity].
  apply IH. cbn [txB]. cbn [snd] in K. lia.
Qed.

(** C10: an override whose index is not the index of an input changes
    nothing: with it and without it, for signers that leave the number of
    inputs as it is, [signInputs] has the same outcome and makes the same
    calls.  Those are the calls, for the indices [0 .. N-1] in order, of the
    signers assigned by the default and the other overrides (the default at
    every index that no other override lists): all [N] of them when the call
    returns, the default signer being called at every index that no other
    override lists, and up to the first failing signer, whose exception is
    the outcome, when it raises; the out-of-range entry raises no error of
    its own and its signer is not among the calls. *)
Theorem signInputs_override_out_of_range (fuel : nat) (txB0 : TransactionBuilder)
    (defaultSigner : TransactionSigner) (before after : list signerPair)
    (override : signerPair) :
  let N := length (ins (__tx txB0)) in
  let calls := map (fun i => (assigned defaultSigner (before ++ after) i, i)) (seq 0 N) in
  let start := {| txB := txB0; invoked := [] |} in
  keeps_inputs defaultSigner ->
  Forall (fun sp => keeps_inputs (signer sp)) (before ++ after) ->
  index override < 0 \/ index override >= Z.of_nat N ->
  signInputs fuel txB0 defaultSigner (Some (before ++ override :: after))
  = signInputs fuel txB0 defaultSigner (Some (before ++ after))
  /\ ((N < fuel)%nat ->
      exists o s k,
        signInputs fuel txB0 defaultSigner (Some (before ++ override :: after)) = Some (o, s)
        /\ invoked s = take k calls
        /\ (forall i, (i < N)%nat ->
              assigned defaultSigner (before ++ override :: after) i
              = assigned defaultSigner (before ++ after) i)
        /\ (o = Threw TypeError ->
            exists sg i txB1, In (sg, i) (invoked s)
                              /\ fst (signTransaction sg txB1 i) = Threw TypeError)
        /\ (k <= N)%nat
        /\ (forall i, (i < N)%nat ->
              (forall sp, In sp (before ++ after) -> index sp <> Z.of_nat i) ->
              assigned defaultSigner (before ++ override :: after) i = defaultSigner)
        /\ match o with
           | Returned txB' =>
               k = N /\ invoked s = calls /\ txB' = txB s
               /\ run_in_order calls start = (Returned tt, s)
               /\ (forall i, (i < N)%nat ->
                     (forall sp, In sp (before ++ after) -> index sp <> Z.of_nat i) ->
                     invoked s !! i = Some (defaultSigner, i))
           | Threw e =>
               exists k' reached,
                 k = S k'
                 /\ run_in_order (take k' calls) start = (Returned tt, reached)
                 /\ signTransaction (assigned defaultSigner (before ++ after) k')
                                    (txB reached) k'
                    = (Threw e, txB s)
           end).
Proof.
  intros N calls start Hd Ho Hrange.
  assert (Hskip : forall i, (i < N)%nat ->
            assigned defaultSigner (before ++ override :: after) i
            = assigned defaultSigner (before ++ after) i)
    by (intros i Hi; apply assigned_skip; lia).
  assert (Heq : signInputs fuel txB0 defaultSigner (Some (before ++ override :: after))
                = signInputs fuel txB0 defaultSigner (Some (before ++ after))).
  { rewrite !signInputs_overridden.
    rewrite (sign_loop_agree
               (overridden (before ++ override :: after)
                  (map_seqZ 0 (map (fun _ => defaultSigner) (ins (__tx txB0)))))
               (overridden (before ++ after)
                  (map_seqZ 0 (map (fun _ => defaultSigner) (ins (__tx txB0)))))
               N); [reflexivity| | |reflexivity].
    - intros j Hj. rewrite !signerArray_lookup by exact Hj. now rewrite Hskip.
    - intros j sg Hj E. rewrite signerArray_lookup in E by exact Hj.
      injection E as <-. now apply assigned_keeps_inputs. }
  split; [exact Heq|]. intros Hfuel. rewrite Heq.
  destruct (signInputs_calls fuel txB0 defaultSigner (before ++ after) Hd Ho Hfuel)
    as (o & s & k & Hrun & Hk & Hinv & Hout).
  fold N in Hk, Hinv, Hout. fold calls in Hinv, Hout. fold start in Hout.
  assert (Hlen : length calls = N) by (unfold calls; now rewrite length_map, length_seq).
  exists o, s, k. split; [exact Hrun|]. split; [exact Hinv|]. split; [exact Hskip|].
  split.
  { intros ->. destruct Hout as (k' & s0 & -> & Hb & He).
    exists (assigned defaultSigner (before ++ after) k'), k', (txB s0).
    split; [|now rewrite He].
    rewrite Hinv. apply list_elem_of_In, list_elem_of_lookup. exists k'.
    rewrite lookup_take_lt by lia. unfold calls. rewrite list_lookup_fmap.
    rewrite lookup_seq_lt by lia. reflexivity. }
  split; [exact Hk|].
  split.
  { intros i Hi Hnone. rewrite (Hskip i Hi). now apply assigned_default. }
  destruct o as [txB'|e]; [|exact Hout].
  destruct Hout as (-> & -> & Hrun_all).
  assert (Hall : invoked s = calls) by (rewrite Hinv, <- Hlen; apply firstn_all).
  split; [reflexivity|]. split; [exact Hall|].
  split; [reflexivity|]. split; [exact Hrun_all|].
  intros i Hi Hnone. rewrite Hall. unfold calls. rewrite list_lookup_fmap.
  rewrite lookup_seq_lt by lia. cbn. now rewrite assigned_default.
Qed.

(** ** The theorems at concrete inputs *)



Lemma addUTXOsToFund_terminates_witness :
  arrays (world_of pool_3_1_2) !! 0%nat = Some pool_3_1_2
  /\ (length pool_3_1_2 <= 3)%nat
  /\ exists o w',
       addUTXOsToFund 3 0%nat 5000 1 true (world_of pool_3_1_2) = Some (o, w')
       /\ ((exists change, o = Returned change)
           \/ (exists amount, o = Threw (NotEnoughFundsError amount))).
Proof.
  assert (H1 : arrays (world_of pool_3_1_2) !! 0%nat = Some pool_3_1_2) by reflexivity.
  assert (H2 : (length pool_3_1_2 <= 3)%nat) by (simpl; lia).
  split; [exact H1|]. split; [exact H2|].
  exact (proj1 (addUTXOsToFund_terminates 3 (world_of pool_3_1_2) 0%nat pool_3_1_2
                  5000 1 true H1 H2)).
Defined.


Lemma script_signer_keeps_inputs (sig : Buffer) : keeps_inputs (script_signer sig).
Proof. intros txB0 i. cbn. apply length_alter. Defined.

Lemma failing_signer_keeps_inputs : keeps_inputs failing_signer.
Proof. intros txB0 i. reflexivity. Defined.

(** The spec's example: three inputs and an override at index [1]. *)
Lemma signInputs_in_order_witness :
  exists s,
    signInputs 4 three_inputs (script_signer sig_default)
      (Some [ {| index := 1; signer := script_signer sig_other |} ])
    = Some (Returned (txB s), s)
    /\ invoked s = [ (script_signer sig_default, 0%nat);
                     (script_signer sig_other, 1%nat);
                     (script_signer sig_default, 2%nat) ].
Proof.
  destruct (signInputs_in_order 4 three_inputs (script_signer sig_default)
              [ {| index := 1; signer := script_signer sig_other |} ])
    as (_ & _ & _ & o & s & k & Hrun & Hk & Hinv & Hout).
  - apply script_signer_keeps_inputs.
  - constructor; [apply script_signer_keeps_inputs|constructor].
  - simpl. lia.
  - vm_compute in Hrun. injection Hrun as <- <-. eexists. split; reflexivity.
Defined.

Lemma signInputs_override_out_of_range_witness :
  signInputs 4 three_inputs (script_signer sig_default)
    (Some [ {| index := 1; signer := script_signer sig_other |};
            {| index := 7; signer := failing_signer |} ])
  = signInputs 4 three_inputs (script_signer sig_default)
      (Some [ {| index := 1; signer := script_signer sig_other |} ])
  /\ exists s,
       signInputs 4 three_inputs (script_signer sig_default)
         (Some [ {| index := 1; signer := script_signer sig_other |};
                 {| index := 7; signer := failing_signer |} ])
       = Some (Returned (txB s), s)
       /\ invoked s = [ (script_signer sig_default, 0%nat);
                        (script_signer sig_other, 1%nat);
                        (script_signer sig_default, 2%nat) ].
Proof.
  destruct (signInputs_override_out_of_range 4 three_inputs (script_signer sig_default)
              [ {| index := 1; signer := script_signer sig_other |} ] []
              {| index := 7; signer := failing_signer |})
    as [Heq Hcalls].
  - apply script_signer_keeps_inputs.
  - constructor; [apply script_signer_keeps_inputs|constructor].
  - right. simpl. lia.
  - split; [exact Heq|].
    destruct Hcalls as (o & s & k & Hrun & _); [simpl; lia|].
    vm_compute in Hrun. injection Hrun as <- <-. eexists. split; reflexivity.
Defined.

(** * Part III: further properties of the code *)

(** ** Byte-size estimator *)

Lemma inputBytes_input_of (utxo : UTXO) :
  inputBytes (Some (input_point (input_of utxo))) = inputBytes None.
Proof. reflexivity. Qed.

Lemma estimateTXBytes_more_inputs (txB : TransactionBuilder) (added : list UTXO)
    (txB' : TransactionBuilder) (a b : nat) :
  ins (__tx txB') = ins (__tx txB) ++ map input_of added ->
  outs (__tx txB') = outs (__tx txB) ->
  estimateTXBytes (inr txB') a b
  = estimateTXBytes (inr txB) a b + Z.of_nat (length added) * 148.
Proof.
  intros Hi Ho. unfold estimateTXBytes, getTransaction, getTransactionInsideBuilder,
    transactionBytes.
  rewrite Hi, Ho, map_app, !fold_left_add_app.
  assert (E : fold_left (fun a0 x => a0 + inputBytes x)
                (map (fun i => Some (input_point i)) (map input_of added)) 0
              = Z.of_nat (length added) * 148).
  { clear Hi. induction added as [|u added IH]; [reflexivity|].
    cbn [map fold_left length]. rewrite fold_left_add_shift, IH.
    rewrite inputBytes_input_of. change (inputBytes None) with 148. lia. }
  rewrite E. lia.
Qed.

(** X1: adding an input with [addInput] makes every estimate grow by the
    [41 + 107] bytes that [estimateTXBytes] charges for one additional
    (placeholder) input: the estimate of the new builder with [a] additional
    inputs is the estimate of the old one with [a + 1]. *)
Theorem estimateTXBytes_addInput (txB : TransactionBuilder) (txHash : string) (vout : Z)
    (a b : nat) :
  estimateTXBytes (inr (addInput txB txHash vout)) a b
  = estimateTXBytes (inr txB) (a + 1) b
  /\ estimateTXBytes (inr (addInput txB txHash vout)) a b
     = estimateTXBytes (inr txB) a b + (41 + 107)
  /\ sumOutputValues (inr (addInput txB txHash vout)) = sumOutputValues (inr txB).
Proof.
  pose proof (estimateTXBytes_more_inputs txB
                [ {| value := 0; tx_hash := txHash; tx_output_n := vout |} ]
                (addInput txB txHash vout) a b eq_refl eq_refl) as E.
  cbn [length] in E.
  rewrite (estimateTXBytes_additional (inr txB) (a + 1) b).
  rewrite (estimateTXBytes_additional (inr txB) a b) in E |- *.
  change (inputBytes None) with 148 in *. split; [|split; [|reflexivity]]; lia.
Qed.

Lemma standard_inputs_bytes (l : list TxInput) :
  Forall standard_input l ->
  fold_left (fun a x => a + inputBytes x) (map (fun i => Some (input_point i)) l) 0
  = Z.of_nat (length l) * 148.
Proof.
  induction 1 as [|i l Hi _ IH]; [reflexivity|].
  cbn [map fold_left length]. rewrite fold_left_add_shift, IH.
  assert (inputBytes (Some (input_point i)) = 148).
  { unfold standard_input in Hi. unfold inputBytes, input_point.
    destruct (in_script i) as [s|]; [|reflexivity].
    cbv beta iota. destruct Hi as [E|E]; rewrite E; reflexivity. }
  lia.
Qed.

Lemma standard_outputs_bytes (l : list TxOutput) :
  Forall standard_output l ->
  fold_left (fun a x => a + outputBytes x) (map (fun o => Some (output_point o)) l) 0
  = Z.of_nat (length l) * 34.
Proof.
  induction 1 as [|o l Ho _ IH]; [reflexivity|].
  cbn [map fold_left length]. rewrite fold_left_add_shift, IH.
  assert (outputBytes (Some (output_point o)) = 34).
  { unfold standard_output in Ho. unfold outputBytes, output_point.
    destruct (out_script o) as [s|]; [|reflexivity].
    cbv beta iota. destruct Ho as [E|E]; rewrite E; reflexivity. }
  lia.
Qed.

(** X2: for a transaction (or builder) whose input scripts are each
    missing, empty or 107 bytes long and whose output scripts are each
    missing, empty or 25 bytes long, the estimate is
    [10 + 148 * inputs + 34 * outputs], additional ones included: signing
    with scripts of the standard size leaves the estimate as it was. *)
Theorem estimateTXBytes_standard (txIn : Transaction + TransactionBuilder) (a b : nat) :
  Forall standard_input (ins (getTransaction txIn)) ->
  Forall standard_output (outs (getTransaction txIn)) ->
  estimateTXBytes txIn a b
  = 10 + 148 * Z.of_nat (length (ins (getTransaction txIn)) + a)
    + 34 * Z.of_nat (length (outs (getTransaction txIn)) + b).
Proof.
  intros Hi Ho. rewrite estimateTXBytes_additional.
  change (inputBytes None) with 148. change (outputBytes None) with 34.
  unfold estimateTXBytes, transactionBytes, dummies. cbn [replicate].
  rewrite !app_nil_r, (standard_inputs_bytes _ Hi), (standard_outputs_bytes _ Ho).
  change TX_EMPTY_SIZE with 10. lia.
Qed.

(** ** UTXO funder *)

(** What a run of [fund] adds to the builder, and what the added UTXOs are
    worth. *)
Lemma fund_accounts (feeRate : Z) (fundNewFees : bool) (fuel : nat) :
  forall (txB txB' : TransactionBuilder) (pool : list UTXO) (amountToFund : Z)
         (o : outcome Z),
    fund fuel txB pool amountToFund feeRate fundNewFees = Some (o, txB') ->
    exists used unused,
      Permutation pool (used ++ unused)
      /\ ins (__tx txB') = ins (__tx txB) ++ map input_of used
      /\ outs (__tx txB') = outs (__tx txB)
      /\ descending_values used
      /\ match o with
         | Returned change =>
             used <> []
             /\ total_value used
                = amountToFund + change
                  + fees_funded fundNewFees (length used) (newFees txB feeRate)
         | Threw (NotEnoughFundsError amount) =>
             total_value used
             = amountToFund - amount
               + fees_funded fundNewFees (length used) (newFees txB feeRate)
         | Threw _ => False
         end.
Proof.
  induction fuel as [|fuel IH]; intros txB txB' pool amountToFund o Hf.
  all: destruct pool as [|u0 pool0];
    [ cbn [fund] in Hf; injection Hf as <- <-; exists [], [];
      split; [reflexivity|]; split; [now rewrite app_nil_r|]; split; [reflexivity|];
      split; [constructor|]; unfold fees_funded; cbn; destruct fundNewFees; lia |].
  all: assert (Hne : u0 :: pool0 <> []) by discriminate.
  all: set (pool := u0 :: pool0) in *.
  all: assert (Hgood : forall sel oth,
           sort_by ascending
             (List.filter
                (meets (utxoThreshhold amountToFund (newFees txB feeRate) fundNewFees)) pool)
           = sel :: oth ->
           exists used unused,
             Permutation pool (used ++ unused)
             /\ ins (__tx (addInput txB (tx_hash sel) (tx_output_n sel)))
                = ins (__tx txB) ++ map input_of used
             /\ outs (__tx (addInput txB (tx_hash sel) (tx_output_n sel))) = outs (__tx txB)
             /\ descending_values used
             /\ used <> []
             /\ total_value used
                = amountToFund
                  + change_of sel amountToFund (newFees txB feeRate) fundNewFees
                  + fees_funded fundNewFees (length used) (newFees txB feeRate)).
  1,3: intros sel oth Hs; apply sufficient_head in Hs as (Hin & _ & _);
       apply in_split in Hin as (l1 & l2 & E);
       exists [sel], (l1 ++ l2); split; [rewrite E; cbn [app]; symmetry; apply Permutation_middle|];
       split; [reflexivity|]; split; [reflexivity|];
       split; [repeat constructor|]; split; [discriminate|];
       unfold fees_funded, change_of; cbn [total_value fold_right length];
       destruct fundNewFees; lia.
  all: assert (Hfee : exists used unused : list UTXO,
           Permutation pool (used ++ unused)
           /\ ins (__tx txB) = ins (__tx txB) ++ map input_of used
           /\ outs (__tx txB) = outs (__tx txB)
           /\ descending_values used
           /\ total_value used
              = amountToFund - amountToFund
                + fees_funded fundNewFees (length used) (newFees txB feeRate))
         by (exists [], pool; split; [reflexivity|]; split; [now rewrite app_nil_r|];
             split; [reflexivity|]; split; [constructor|];
             unfold fees_funded; cbn; destruct fundNewFees; lia).
  - destruct (fund_cases 0 txB pool amountToFund feeRate fundNewFees Hne)
      as [(sel & oth & Hs & E)|(lg & rest & _ & Hd & [[_ E]|[_ E]])];
      rewrite E in Hf; [| |discriminate]; injection Hf as <- <-.
    + destruct (Hgood sel oth Hs) as (used & unused & H1 & H2 & H3 & H4 & H5 & H6).
      now exists used, unused.
    + exact Hfee.
  - destruct (fund_cases (S fuel) txB pool amountToFund feeRate fundNewFees Hne)
      as [(sel & oth & Hs & E)|(lg & rest & _ & Hd & [[_ E]|[_ E]])];
      rewrite E in Hf.
    + injection Hf as <- <-.
      destruct (Hgood sel oth Hs) as (used & unused & H1 & H2 & H3 & H4 & H5 & H6).
      now exists used, unused.
    + injection Hf as <- <-. exact Hfee.
    + destruct (IH _ _ _ _ _ Hf) as (used & unused & Hp & Hi & Ho & Hs & Hacc).
      destruct (descending_head _ _ _ Hd) as [_ Hmax].
      destruct (descending_tail _ _ _ Hd) as (_ & _ & Hrest).
      pose proof (sort_by_Permutation descending pool) as P. rewrite Hd in P.
      exists (lg :: used), unused.
      split; [rewrite P; cbn [app]; now apply perm_skip|].
      split; [rewrite Hi; cbn [addInput __tx ins map]; now rewrite <- app_assoc|].
      split; [rewrite Ho; reflexivity|].
      split.
      { constructor; [exact Hs|]. apply List.Forall_forall. intros x Hx.
        apply Hmax, Hrest. eapply Permutation_in; [symmetry; exact Hp|].
        apply in_or_app. now left. }
      rewrite (newFees_const (addInput _ _ _)) in Hacc. rewrite newFees_const.
      unfold fees_funded, remain_of in *.
      cbn [total_value fold_right length]. fold (total_value used).
      rewrite newFees_const in Hacc.
      destruct o as [change|[amount| |]]; [| |exact Hacc|exact Hacc].
      * destruct Hacc as [_ Hacc]. split; [discriminate|].
        destruct fundNewFees; lia.
      * destruct fundNewFees; lia.
Qed.


Lemma total_value_nonneg (l : list UTXO) :
  (forall utxo, In utxo l -> 0 <= value utxo) -> 0 <= total_value l.
Proof.
  induction l as [|x l IH]; intros H; [cbn; lia|].
  cbn [total_value fold_right]. fold (total_value l).
  pose proof (H x (or_introl eq_refl)).
  assert (0 <= total_value l) by (apply IH; intros u Hu; apply H; now right). lia.
Qed.

(** The fee funded for the added inputs is the fee rate times the growth of
    the size estimate. *)
Lemma fees_funded_estimate (feeRate : Z) (fundNewFees : bool)
    (txB txB' : TransactionBuilder) (used : list UTXO) :
  ins (__tx txB') = ins (__tx txB) ++ map input_of used ->
  outs (__tx txB') = outs (__tx txB) ->
  fees_funded fundNewFees (length used) (newFees txB feeRate)
  = if fundNewFees
    then feeRate * (estimateTXBytes (inr txB') 0 0 - estimateTXBytes (inr txB) 0 0)
    else 0.
Proof.
  intros Hi Ho. unfold fees_funded. destruct fundNewFees; [|reflexivity].
  rewrite (estimateTXBytes_more_inputs txB used txB' 0 0 Hi Ho), newFees_const. lia.
Qed.

(** X5: whatever its outcome, a call only appends inputs: the inputs that
    the builder had are kept, in front and unchanged, at most one input per
    UTXO of the pool is added, and the outputs, hence [sumOutputValues], are
    as before. *)
Theorem addUTXOsToFund_only_appends_inputs (fuel : nat) (w w' : world) (utxos : ref)
    (pool : list UTXO) (amountToFund feeRate : Z) (fundNewFees : bool) (o : outcome Z) :
  arrays w !! utxos = Some pool ->
  addUTXOsToFund fuel utxos amountToFund feeRate fundNewFees w = Some (o, w') ->
  (exists added,
      ins (__tx (builder w')) = ins (__tx (builder w)) ++ added
      /\ (length added <= length pool)%nat
      /\ Forall (fun i => in_script i = Some []) added)
  /\ outs (__tx (builder w')) = outs (__tx (builder w))
  /\ sumOutputValues (inr (builder w')) = sumOutputValues (inr (builder w)).
Proof.
  intros Hpool Hrun.
  destruct (addUTXOsToFund_fund_inv _ _ _ _ _ _ _ _ _ Hpool Hrun) as (Hf & _).
  destruct (fund_accounts _ _ _ _ _ _ _ _ Hf)
    as (used & unused & Hp & Hi & Ho & _).
  split; [|split; [exact Ho|]].
  - exists (map input_of used). split; [exact Hi|]. split.
    + rewrite length_map, (Permutation_length Hp), length_app. lia.
    + apply List.Forall_forall. intros i Hin. apply in_map_iff in Hin as (u & <- & _).
      reflexivity.
  - unfold sumOutputValues, getTransaction, getTransactionInsideBuilder. now rewrite Ho.
Qed.

(** X6: the UTXOs are consumed largest first: along the inputs that a call
    appends, the values of the UTXOs they reference never increase. *)
Theorem addUTXOsToFund_consumes_largest_first (fuel : nat) (w w' : world) (utxos : ref)
    (pool : list UTXO) (amountToFund feeRate : Z) (fundNewFees : bool) (o : outcome Z) :
  arrays w !! utxos = Some pool ->
  addUTXOsToFund fuel utxos amountToFund feeRate fundNewFees w = Some (o, w') ->
  exists used unused,
    Permutation pool (used ++ unused)
    /\ ins (__tx (builder w')) = ins (__tx (builder w)) ++ map input_of used
    /\ StronglySorted (fun a b => value a >= value b) used.
Proof.
  intros Hpool Hrun.
  destruct (addUTXOsToFund_fund_inv _ _ _ _ _ _ _ _ _ Hpool Hrun) as (Hf & _).
  destruct (fund_accounts _ _ _ _ _ _ _ _ Hf)
    as (used & unused & Hp & Hi & _ & Hs & _).
  exists used, unused. split; [exact Hp|]. split; [exact Hi|].
  unfold descending_values in Hs. clear - Hs.
  induction Hs as [|x l _ IH Hx]; constructor; [exact IH|].
  eapply Forall_impl; [exact Hx|]. intros y Hy. cbv beta in Hy. lia.
Qed.


(** X8: a call never removes a UTXO from the caller's array: after the
    call, whatever its outcome, the array holds the same UTXOs as before,
    consumed ones included, possibly in another order. *)
Theorem addUTXOsToFund_keeps_pool_elements (fuel : nat) (w w' : world) (utxos : ref)
    (pool : list UTXO) (amountToFund feeRate : Z) (fundNewFees : bool) (o : outcome Z) :
  arrays w !! utxos = Some pool ->
  addUTXOsToFund fuel utxos amountToFund feeRate fundNewFees w = Some (o, w') ->
  exists pool',
    arrays w' !! utxos = Some pool'
    /\ Permutation pool pool'
    /\ length pool' = length pool.
Proof.
  intros Hpool Hrun.
  destruct (addUTXOsToFund_fund_inv _ _ _ _ _ _ _ _ _ Hpool Hrun) as (_ & Hafter & _).
  eexists. split; [exact Hafter|].
  assert (P : Permutation pool
                (pool_after pool
                   (utxoThreshhold amountToFund (newFees (builder w) feeRate) fundNewFees))).
  { unfold pool_after. destruct (List.filter _ pool); [apply sort_by_Permutation|reflexivity]. }
  split; [exact P|]. symmetry. now apply Permutation_length.
Qed.

(** *** The outcome is a function of the values *)

Lemma StronglySorted_map_key {A : Type} (key : A -> Z) (l : list A) :
  StronglySorted (fun x y => key x <= key y) l -> StronglySorted Z.le (map key l).
Proof.
  induction 1 as [|x l _ IH Hx]; cbn [map]; constructor; [exact IH|].
  apply List.Forall_forall. intros k Hk. apply in_map_iff in Hk as (y & <- & Hy).
  rewrite List.Forall_forall in Hx. now apply Hx.
Qed.

Lemma sort_by_keys {A : Type} (cmp : A -> A -> Z) (key : A -> Z) (l1 l2 : list A) :
  (forall x y, cmp x y <= 0 <-> key x <= key y) ->
  Permutation (map key l1) (map key l2) ->
  map key (sort_by cmp l1) = map key (sort_by cmp l2).
Proof.
  intros Hcmp P. apply (StronglySorted_unique Z.le).
  - apply StronglySorted_map_key. now apply (sort_by_sorted cmp key).
  - apply StronglySorted_map_key. now apply (sort_by_sorted cmp key).
  - rewrite <- (Permutation_map key (sort_by_Permutation cmp l1)).
    rewrite <- (Permutation_map key (sort_by_Permutation cmp l2)). exact P.
Qed.

Lemma filter_meets_values (threshold : Z) (l : list UTXO) :
  map value (List.filter (meets threshold) l)
  = List.filter (fun v => v >=? threshold) (map value l).
Proof.
  induction l as [|x l IH]; [reflexivity|].
  cbn [List.filter map]. unfold meets at 1.
  destruct (value x >=? threshold); cbn [map]; now rewrite IH.
Qed.

Lemma Permutation_list_filter {A : Type} (p : A -> bool) (l l' : list A) :
  Permutation l l' -> Permutation (List.filter p l) (List.filter p l').
Proof.
  induction 1 as [|x l l' _ IH|x y l|l l' l'' _ IH1 _ IH2]; cbn [List.filter].
  - reflexivity.
  - destruct (p x); [now apply perm_skip|exact IH].
  - destruct (p x), (p y); try reflexivity. apply perm_swap.
  - now rewrite IH1.
Qed.

(** One call of [fund], read on the values. *)
Lemma fund_view (feeRate : Z) (fundNewFees : bool) (fuel : nat)
    (txB : TransactionBuilder) (pool : list UTXO) (amountToFund : Z) :
  pool <> [] ->
  let nf := feeRate * 148 in
  let threshold := utxoThreshhold amountToFund nf fundNewFees in
  fst <$> fund fuel txB pool amountToFund feeRate fundNewFees
  = match map value (sort_by ascending (List.filter (meets threshold) pool)) with
    | v :: _ =>
        Some (Returned (if fundNewFees then v - amountToFund - nf else v - amountToFund))
    | [] =>
        match sort_by descending pool with
        | largest :: rest =>
            if nf >=? value largest then Some (Threw (NotEnoughFundsError amountToFund))
            else
              match fuel with
              | O => None
              | S fuel' =>
                  fst <$> fund fuel' (addInput txB (tx_hash largest) (tx_output_n largest))
                            rest
                            (if fundNewFees then amountToFund - value largest + nf
                             else amountToFund - value largest)
                            feeRate fundNewFees
              end
        | [] => Some (Threw TypeError)
        end
    end.
Proof.
  intros Hne nf threshold. destruct pool as [|u0 pool0]; [congruence|].
  assert (E : fund fuel txB (u0 :: pool0) amountToFund feeRate fundNewFees
              = match sort_by ascending (List.filter (meets threshold) (u0 :: pool0)) with
                | selected :: _ =>
                    Some (Returned (change_of selected amountToFund nf fundNewFees),
                          addInput txB (tx_hash selected) (tx_output_n selected))
                | [] =>
                    match sort_by descending (u0 :: pool0) with
                    | largest :: rest =>
                        if nf >=? value largest
                        then Some (Threw (NotEnoughFundsError amountToFund), txB)
                        else
                          match fuel with
                          | O => None
                          | S fuel' =>
                              fund fuel' (addInput txB (tx_hash largest) (tx_output_n largest))
                                   rest (remain_of largest amountToFund nf fundNewFees)
                                   feeRate fundNewFees
                          end
                    | [] => Some (Threw TypeError, txB)
                    end
                end).
  { unfold threshold, nf. rewrite <- (newFees_const txB feeRate). now destruct fuel. }
  rewrite E.
  destruct (sort_by ascending (List.filter (meets threshold) (u0 :: pool0))) as [|sel oth];
    [|reflexivity].
  cbn [map]. destruct (sort_by descending (u0 :: pool0)) as [|lg rest]; [reflexivity|].
  destruct (nf >=? value lg); [reflexivity|]. destruct fuel; reflexivity.
Qed.

Lemma fund_outcome_values (feeRate : Z) (fundNewFees : bool) (fuel : nat) :
  forall (txB1 txB2 : TransactionBuilder) (pool1 pool2 : list UTXO) (amountToFund : Z),
    Permutation (map value pool1) (map value pool2) ->
    fst <$> fund fuel txB1 pool1 amountToFund feeRate fundNewFees
    = fst <$> fund fuel txB2 pool2 amountToFund feeRate fundNewFees.
Proof.
  induction fuel as [|fuel IH]; intros txB1 txB2 pool1 pool2 amountToFund P.
  all: destruct pool1 as [|a1 l1], pool2 as [|a2 l2];
    [ reflexivity
    | apply Permutation_length in P; discriminate
    | apply Permutation_length in P; discriminate |].
  all: rewrite (fund_view _ _ _ txB1 (a1 :: l1)), (fund_view _ _ _ txB2 (a2 :: l2))
         by discriminate.
  all: set (pool1 := a1 :: l1) in *; set (pool2 := a2 :: l2) in *.
  all: set (thr := utxoThreshhold amountToFund (feeRate * 148) fundNewFees).
  all: assert (Hasc : map value (sort_by ascending (List.filter (meets thr) pool1))
                      = map value (sort_by ascending (List.filter (meets thr) pool2)))
         by (apply (sort_by_keys ascending value);
             [ unfold ascending; intros; lia
             | rewrite !filter_meets_values; now apply Permutation_list_filter ]).
  all: assert (Hdesc : map (fun u => - value u) (sort_by descending pool1)
                       = map (fun u => - value u) (sort_by descending pool2))
         by (apply (sort_by_keys descending (fun u => - value u));
             [ unfold descending; intros; lia
             | rewrite <- !(map_map value Z.opp); now apply Permutation_map ]).
  all: rewrite Hasc.
  all: destruct (map value (sort_by ascending (List.filter (meets thr) pool2)));
    [|reflexivity].
  all: destruct (sort_by descending pool1) as [|lg1 rest1],
                (sort_by descending pool2) as [|lg2 rest2];
    [reflexivity|discriminate|discriminate|].
  all: cbn [map] in Hdesc; injection Hdesc as Hlg Hrest.
  all: assert (Elg : value lg1 = value lg2) by lia; rewrite Elg.
  all: destruct (feeRate * 148 >=? value lg2); [reflexivity|].
  - reflexivity.
  - apply IH.
    assert (E : map value rest1 = map value rest2).
    { rewrite <- (map_map value Z.opp rest1), <- (map_map value Z.opp rest2) in Hrest.
      revert Hrest. generalize (map value rest1) (map value rest2).
      induction l as [|x l IHl]; intros [|y l'] H; try discriminate; [reflexivity|].
      cbn [map] in H. injection H as Hx Hl. f_equal; [lia|now apply IHl]. }
    now rewrite E.
Qed.

Lemma addUTXOsToFund_outcome (feeRate : Z) (fundNewFees : bool) (fuel : nat)
    (w : world) (utxos : ref) (pool : list UTXO) (amountToFund : Z) :
  arrays w !! utxos = Some pool ->
  fst <$> addUTXOsToFund fuel utxos amountToFund feeRate fundNewFees w
  = fst <$> fund fuel (builder w) pool amountToFund feeRate fundNewFees.
Proof.
  intros Hpool.
  pose proof (addUTXOsToFund_fund feeRate fundNewFees fuel w utxos pool amountToFund Hpool) as R.
  destruct (fund fuel (builder w) pool amountToFund feeRate fundNewFees) as [[o txB']|].
  - destruct R as (w' & -> & _). reflexivity.
  - now rewrite R.
Qed.

(** X9: the outcome of a call, the change returned or the amount in the
    error, depends on the pool only through the values it holds: two calls
    with the same amount, fee rate and flag have the same outcome whenever
    their pools hold the same values, in whatever order, with whatever
    hashes, and whatever the builders already contain. *)
Theorem addUTXOsToFund_outcome_by_values (fuel : nat) (w1 w2 : world) (utxos1 utxos2 : ref)
    (pool1 pool2 : list UTXO) (amountToFund feeRate : Z) (fundNewFees : bool) :
  arrays w1 !! utxos1 = Some pool1 ->
  arrays w2 !! utxos2 = Some pool2 ->
  Permutation (map value pool1) (map value pool2) ->
  fst <$> addUTXOsToFund fuel utxos1 amountToFund feeRate fundNewFees w1
  = fst <$> addUTXOsToFund fuel utxos2 amountToFund feeRate fundNewFees w2.
Proof.
  intros H1 H2 P.
  rewrite (addUTXOsToFund_outcome _ _ _ _ _ _ _ H1), (addUTXOsToFund_outcome _ _ _ _ _ _ _ H2).
  now apply fund_outcome_values.
Qed.

(** ** Base-40 decoder *)

Section Base40More.

Import B40.

Lemma indexOf_from_range (s : string) (c : ascii) :
  forall i, indexOf_from i s c = -1
            \/ (i <= indexOf_from i s c < i + Z.of_nat (String.length s)
                /\ String.get (Z.to_nat (indexOf_from i s c - i)) s = Some c).
Proof.
  induction s as [|x s IH]; intros i; [now left|].
  cbn [indexOf_from String.length]. destruct (Ascii.eqb_spec x c) as [->|Hne].
  - right. split; [lia|]. now rewrite Z.sub_diag.
  - destruct (IH (i + 1)) as [->|[Hr Hg]]; [now left|right].
    split; [lia|].
    replace (Z.to_nat (indexOf_from (i + 1) s c - i))
      with (S (Z.to_nat (indexOf_from (i + 1) s c - (i + 1)))) by lia.
    exact Hg.
Qed.

Lemma digit_value_range (c : ascii) :
  in_alphabet c = true ->
  0 <= digit_value c < 40
  /\ String.get (Z.to_nat (digit_value c)) characters = Some c.
Proof.
  unfold in_alphabet, digit_value, indexOf. intros H. apply Z.leb_le in H.
  destruct (indexOf_from_range characters c 0) as [E|[Hr Hg]]; [lia|].
  rewrite Z.sub_0_r in Hg. split; [|exact Hg].
  change (Z.of_nat (String.length characters)) with 40 in Hr. lia.
Qed.

Lemma digit_value_inj (c1 c2 : ascii) :
  in_alphabet c1 = true -> in_alphabet c2 = true ->
  digit_value c1 = digit_value c2 -> c1 = c2.
Proof.
  intros H1 H2 E.
  destruct (digit_value_range c1 H1) as [_ G1].
  destruct (digit_value_range c2 H2) as [_ G2].
  rewrite E in G1. rewrite G1 in G2. now injection G2.
Qed.

Lemma positional_snoc (l : list ascii) (c : ascii) (acc : Z) :
  positional (l ++ [c]) acc = positional l acc * 40 + digit_value c.
Proof. unfold positional. now rewrite fold_left_app. Qed.

Lemma positional_acc (l : list ascii) :
  forall acc, positional l acc = acc * 40 ^ Z.of_nat (length l) + positional l 0.
Proof.
  induction l as [|c l IH]; intros acc; [cbn; lia|].
  cbn [positional fold_left length]. fold (positional l (acc * 40 + digit_value c)).
  fold (positional l (0 * 40 + digit_value c)).
  rewrite (IH (acc * 40 + digit_value c)), (IH (0 * 40 + digit_value c)).
  rewrite Nat2Z.inj_succ, Z.pow_succ_r by lia. lia.
Qed.

Lemma positional_bound (l : list ascii) :
  forallb in_alphabet l = true ->
  0 <= positional l 0 < 40 ^ Z.of_nat (length l).
Proof.
  induction l as [|c l IH] using rev_ind; intros H; [cbn; lia|].
  rewrite forallb_app in H. apply andb_prop in H as [Hl Hc].
  cbn [forallb] in Hc. rewrite andb_true_r in Hc.
  destruct (digit_value_range c Hc) as [Hd _]. specialize (IH Hl).
  rewrite positional_snoc, length_app. cbn [length].
  replace (Z.of_nat (length l + 1)) with (Z.succ (Z.of_nat (length l))) by lia.
  rewrite Z.pow_succ_r by lia. lia.
Qed.

Lemma positional_inj (l1 : list ascii) :
  forall l2,
    length l1 = length l2 ->
    forallb in_alphabet l1 = true -> forallb in_alphabet l2 = true ->
    positional l1 0 = positional l2 0 -> l1 = l2.
Proof.
  induction l1 as [|c1 l1 IH] using rev_ind; intros l2 Hlen H1 H2 E.
  - destruct l2; [reflexivity|discriminate].
  - destruct l2 as [|c2 l2 _] using rev_ind.
    { rewrite length_app in Hlen. cbn in Hlen. lia. }
    rewrite !length_app in Hlen. cbn [length] in Hlen.
    rewrite forallb_app in H1, H2.
    apply andb_prop in H1 as [H1 Hc1]. apply andb_prop in H2 as [H2 Hc2].
    cbn [forallb] in Hc1, Hc2. rewrite andb_true_r in Hc1, Hc2.
    rewrite !positional_snoc in E.
    destruct (digit_value_range c1 Hc1) as [R1 _].
    destruct (digit_value_range c2 Hc2) as [R2 _].
    assert (positional l1 0 = positional l2 0 /\ digit_value c1 = digit_value c2)
      as [El Ec] by lia.
    f_equal; [apply IH; [lia|assumption|assumption|exact El]|].
    f_equal. now apply digit_value_inj.
Qed.

Lemma positional_leading (c : ascii) (l : list ascii) :
  in_alphabet c = true -> c <> "0"%char -> forallb in_alphabet l = true ->
  40 ^ Z.of_nat (length l) <= positional (c :: l) 0.
Proof.
  intros Hc Hnz Hl.
  change (positional (c :: l) 0) with (positional l (0 * 40 + digit_value c)).
  rewrite positional_acc. pose proof (positional_bound l Hl).
  destruct (digit_value_range c Hc) as [Hd Hg].
  assert (digit_value c <> 0).
  { intros E. rewrite E in Hg. cbn in Hg. injection Hg as <-. now apply Hnz. }
  assert (0 < 40 ^ Z.of_nat (length l)) by (apply Z.pow_pos_nonneg; lia).
  nia.
Qed.

Lemma decodeB40_eq_value (s1 s2 : string) :
  over_alphabet s1 -> over_alphabet s2 ->
  decodeB40 s1 = decodeB40 s2 -> base40_value s1 = base40_value s2.
Proof.
  intros H1 H2 E. rewrite !decodeB40_value in E. injection E as E.
  destruct (toString16_2_nonneg _ (base40_value_nonneg _ H1)) as [V1 _].
  destruct (toString16_2_nonneg _ (base40_value_nonneg _ H2)) as [V2 _].
  rewrite E in V1. rewrite V1 in V2. now injection V2.
Qed.

Lemma string_of_chars_inj (s1 s2 : string) :
  list_ascii_of_string s1 = list_ascii_of_string s2 -> s1 = s2.
Proof.
  intros E. rewrite <- (string_of_list_ascii_of_string s1),
    <- (string_of_list_ascii_of_string s2). now rewrite E.
Qed.

Lemma length_chars (s : string) : length (list_ascii_of_string s) = String.length s.
Proof. induction s as [|c s IH]; [reflexivity|]. cbn. now rewrite IH. Qed.

End Base40More.

(** X10: zeros in front do not count: a string and the same string with a
    ['0'] in front decode to the same hexadecimal string, whatever the rest
    of the string is, so the decoder does not tell ["a"] from ["0a"]. *)
Theorem decodeB40_leading_zero (input : string) :
  B40.decodeB40 (String "0" input) = B40.decodeB40 input.
Proof. rewrite !decodeB40_value. reflexivity. Qed.

(** X11: apart from zeros in front, the decoder loses nothing: two strings
    over the alphabet that decode to the same hexadecimal string are the same
    string, when they have the same length or when neither begins with
    ['0']. *)
Theorem decodeB40_injective (s1 s2 : string) :
  B40.over_alphabet s1 -> B40.over_alphabet s2 ->
  String.length s1 = String.length s2
  \/ (no_leading_zero s1 /\ no_leading_zero s2) ->
  B40.decodeB40 s1 = B40.decodeB40 s2 ->
  s1 = s2.
Proof.
  intros H1 H2 Hshape E.
  pose proof (decodeB40_eq_value s1 s2 H1 H2 E) as Ev.
  unfold B40.base40_value in Ev.
  fold (positional (list_ascii_of_string s1) 0) in Ev.
  fold (positional (list_ascii_of_string s2) 0) in Ev.
  apply string_of_chars_inj.
  apply positional_inj; [|exact H1|exact H2|exact Ev].
  rewrite !length_chars.
  destruct Hshape as [Hlen|[N1 N2]]; [exact Hlen|].
  unfold B40.over_alphabet in H1, H2.
  assert (Hlt : forall a b : string,
            forallb B40.in_alphabet (list_ascii_of_string a) = true ->
            forallb B40.in_alphabet (list_ascii_of_string b) = true ->
            no_leading_zero b ->
            (String.length a < String.length b)%nat ->
            positional (list_ascii_of_string a) 0 < positional (list_ascii_of_string b) 0).
  { intros a b Ha Hb Nb L. destruct b as [|c b]; [cbn in L; lia|].
    cbn [list_ascii_of_string forallb] in Hb. apply andb_prop in Hb as [Hc Hb].
    pose proof (positional_leading c (list_ascii_of_string b) Hc Nb Hb) as Lb.
    pose proof (positional_bound _ Ha) as La.
    rewrite !length_chars in *. cbn [String.length] in L.
    assert (40 ^ Z.of_nat (String.length a) <= 40 ^ Z.of_nat (String.length b))
      by (apply Z.pow_le_mono_r; lia).
    cbn [list_ascii_of_string] in *. lia. }
  destruct (Nat.lt_trichotomy (String.length s1) (String.length s2)) as [L|[L|L]].
  - pose proof (Hlt s1 s2 H1 H2 N2 L). lia.
  - exact L.
  - pose proof (Hlt s2 s1 H2 H1 N1 L). lia.
Qed.

Lemma decodeB40_injective_witness :
  B40.over_alphabet "id" /\ B40.over_alphabet "app"
  /\ B40.decodeB40 "id" <> B40.decodeB40 "app".
Proof.
  split; [reflexivity|]. split; [reflexivity|]. intros E.
  assert (H : "id"%string = "app"%string).
  { apply (decodeB40_injective "id" "app"); [reflexivity|reflexivity| |exact E].
    right. split; discriminate. }
  discriminate H.
Defined.

(** ** Signer driver *)

(** X12: on a builder without inputs, [signInputs] calls no signer and
    returns the builder as it is, whatever the default signer and the
    overrides are. *)
Theorem signInputs_no_inputs (fuel : nat) (txB0 : TransactionBuilder)
    (defaultSigner : TransactionSigner) (otherSigners : option (list signerPair)) :
  ins (__tx txB0) = [] ->
  signInputs (S fuel) txB0 defaultSigner otherSigners
  = Some (Returned txB0, {| txB := txB0; invoked := [] |}).
Proof.
  intros H. unfold signInputs. cbn [sign_loop txB].
  unfold getTransactionInsideBuilder. rewrite H. reflexivity.
Qed.

Lemma signInputs_no_inputs_witness :
  signInputs 1 empty_builder failing_signer
    (Some [ {| index := 0; signer := failing_signer |} ])
  = Some (Returned empty_builder, {| txB := empty_builder; invoked := [] |}).
Proof. apply (signInputs_no_inputs 0 empty_builder). reflexivity. Defined.

Lemma overridden_lookup_Some (others : list signerPair) :
  forall (arr : gmap Z TransactionSigner) (k : Z) (sg : TransactionSigner),
    overridden others arr !! k = Some sg ->
    arr !! k = Some sg
    \/ exists sp, In sp others /\ index sp = k /\ signer sp = sg.
Proof.
  induction others as [|sp others IH]; intros arr k sg H; [now left|].
  change (overridden (sp :: others) arr)
    with (overridden others (<[index sp := signer sp]> arr)) in H.
  destruct (IH _ _ _ H) as [H'|(sp' & Hin & Hi & Hs)].
  - rewrite lookup_insert in H'. case_decide as E.
    + right. exists sp. injection H' as <-. split; [now left|now split].
    + now left.
  - right. exists sp'. split; [now right|now split].
Qed.

Lemma sign_loop_indices (signerArray : gmap Z TransactionSigner) (fuel : nat) :
  forall (i : nat) (s s' : signing) (o : outcome unit),
    sign_loop fuel signerArray i s = Some (o, s') ->
    exists calls k,
      invoked s' = invoked s ++ calls
      /\ map snd calls = seq i k
      /\ Forall (fun c => signerArray !! Z.of_nat (snd c) = Some (fst c)) calls.
Proof.
  induction fuel as [|fuel IH]; intros i s s' o H; [discriminate|].
  cbn [sign_loop] in H.
  destruct (i <? length (ins (getTransactionInsideBuilder (txB s))))%nat.
  2:{ injection H as <- <-. exists [], 0%nat. rewrite app_nil_r. repeat split. constructor. }
  destruct (signerArray !! Z.of_nat i) as [sg|] eqn:E.
  2:{ injection H as <- <-. exists [], 0%nat. rewrite app_nil_r. repeat split. constructor. }
  destruct (signTransaction sg (txB s) i) as [[[]|e] txB'].
  - destruct (IH _ _ _ _ H) as (calls & k & Hinv & Hidx & Hall).
    cbn [invoked] in Hinv. exists ((sg, i) :: calls), (S k).
    split; [rewrite Hinv; now rewrite <- app_assoc|].
    split; [cbn [map seq snd]; f_equal; now rewrite Hidx, Nat.add_1_r|].
    constructor; [exact E|exact Hall].
  - injection H as <- <-. exists [(sg, i)], 1%nat. repeat split.
    constructor; [exact E|constructor].
Qed.

(** X13: whatever the signers do to the builder, the driver signs the
    indices [0, 1, 2, ...] one after the other, none skipped and none twice;
    the signer called for an index of an input that the transaction had at
    the start is the one assigned to it, and a signer called for an index
    beyond those is the signer of an override that lists that index. *)
Theorem signInputs_consecutive_indices (fuel : nat) (txB0 : TransactionBuilder)
    (defaultSigner : TransactionSigner) (others : list signerPair)
    (o : outcome TransactionBuilder) (s : signing) :
  signInputs fuel txB0 defaultSigner (Some others) = Some (o, s) ->
  let N := length (ins (__tx txB0)) in
  (exists k, map snd (invoked s) = seq 0 k)
  /\ (forall sg i, In (sg, i) (invoked s) ->
        ((i < N)%nat -> sg = assigned defaultSigner others i)
        /\ ((N <= i)%nat ->
            exists sp, In sp others /\ index sp = Z.of_nat i /\ signer sp = sg)).
Proof.
  intros H N. rewrite signInputs_overridden in H.
  destruct (sign_loop fuel _ 0 {| txB := txB0; invoked := [] |}) as [[ol sl]|] eqn:Hloop;
    [|discriminate].
  assert (s = sl) as -> by (destruct ol; now injection H).
  destruct (sign_loop_indices _ _ _ _ _ _ Hloop) as (calls & k & Hinv & Hidx & Hall).
  cbn [invoked app] in Hinv. rewrite Hinv.
  split; [now exists k|].
  intros sg i Hin. rewrite List.Forall_forall in Hall.
  specialize (Hall _ Hin). cbn [fst snd] in Hall. split.
  - intros Hi. rewrite signerArray_lookup in Hall by exact Hi. now injection Hall.
  - intros Hi. destruct (overridden_lookup_Some _ _ _ _ Hall) as [Hbase|Hov]; [|exact Hov].
    rewrite lookup_map_seqZ_0 in Hbase by lia. rewrite Nat2Z.id in Hbase.
    apply lookup_lt_Some in Hbase. rewrite length_map in Hbase. fold N in Hbase. lia.
Qed.

Lemma signInputs_consecutive_indices_witness :
  exists o s k,
    signInputs 4 three_inputs (script_signer sig_default)
      (Some [ {| index := 1; signer := failing_signer |} ]) = Some (o, s)
    /\ map snd (invoked s) = seq 0 k.
Proof.
  destruct (signInputs 4 three_inputs (script_signer sig_default)
              (Some [ {| index := 1; signer := failing_signer |} ]))
    as [[o s]|] eqn:Hrun; [|vm_compute in Hrun; discriminate].
  destruct (signInputs_consecutive_indices 4 three_inputs (script_signer sig_default)
              [ {| index := 1; signer := failing_signer |} ] o s Hrun) as [[k Hk] _].
  now exists o, s, k.
Defined.

(** ** UTXO funder: the amount in the error *)

Lemma fund_error_amount (feeRate : Z) (fundNewFees : bool) (fuel : nat) :
  feeRate >= 0 ->
  forall (txB txB' : TransactionBuilder) (pool : list UTXO) (amountToFund amount : Z),
    fund fuel txB pool amountToFund feeRate fundNewFees
    = Some (Threw (NotEnoughFundsError amount), txB') ->
    (txB' = txB /\ amount = amountToFund)
    \/ ((length (ins (__tx txB)) < length (ins (__tx txB')))%nat
        /\ 0 < amount < amountToFund).
Proof.
  intros Hrate. induction fuel as [|fuel IH]; intros txB txB' pool amountToFund amount Hf.
  all: destruct pool as [|u0 pool0];
    [cbn [fund] in Hf; injection Hf as <- <-; now left|].
  all: assert (Hne : u0 :: pool0 <> []) by discriminate.
  - destruct (fund_cases 0 txB (u0 :: pool0) amountToFund feeRate fundNewFees Hne)
      as [(sel & oth & _ & E)|(lg & rest & _ & _ & [[_ E]|[_ E]])];
      rewrite E in Hf; try discriminate.
    injection Hf as <- <-. now left.
  - destruct (fund_cases (S fuel) txB (u0 :: pool0) amountToFund feeRate fundNewFees Hne)
      as [(sel & oth & _ & E)|(lg & rest & Hgood & Hd & [[_ E]|[L E]])];
      rewrite E in Hf; try discriminate.
    + injection Hf as <- <-. now left.
    + right.
      destruct (descending_head _ _ _ Hd) as [Hlg _].
      pose proof (filter_nil_below _ _ Hgood lg Hlg) as Hbelow.
      rewrite newFees_const in L, Hbelow.
      assert (Hrem : 0 < remain_of lg amountToFund (newFees txB feeRate) fundNewFees
                     < amountToFund).
      { rewrite newFees_const. unfold remain_of, utxoThreshhold in *.
        destruct fundNewFees; lia. }
      destruct (IH _ _ _ _ _ Hf) as [[-> ->]|[Hlen Ha]].
      * split; [|exact Hrem]. cbn [addInput __tx ins]. rewrite length_app. cbn. lia.
      * split; [|lia]. cbn [addInput __tx ins] in Hlen. rewrite length_app in Hlen.
        cbn in Hlen. lia.
Qed.

(** ** The further properties at concrete inputs *)

Lemma estimateTXBytes_standard_witness :
  estimateTXBytes (inr three_inputs) 1 2 = 10 + 148 * 4 + 34 * 2.
Proof.
  apply (estimateTXBytes_standard (inr three_inputs) 1 2).
  - repeat constructor; left; reflexivity.
  - constructor.
Defined.

Lemma addUTXOsToFund_only_appends_inputs_witness :
  exists o w',
    addUTXOsToFund 3 0%nat 10000 1 true (world_of pool_3_1_2) = Some (o, w')
    /\ sumOutputValues (inr (builder w'))
       = sumOutputValues (inr (builder (world_of pool_3_1_2))).
Proof.
  destruct (addUTXOsToFund 3 0%nat 10000 1 true (world_of pool_3_1_2))
    as [[o w']|] eqn:Hrun; [|vm_compute in Hrun; discriminate].
  destruct (addUTXOsToFund_only_appends_inputs 3 (world_of pool_3_1_2) w' 0%nat pool_3_1_2
              10000 1 true o eq_refl Hrun) as (_ & _ & Hsum).
  exists o, w'. split; [reflexivity|exact Hsum].
Defined.

Lemma addUTXOsToFund_consumes_largest_first_witness :
  exists o w' used unused,
    addUTXOsToFund 3 0%nat 5000 1 true (world_of pool_3_1_2) = Some (o, w')
    /\ Permutation pool_3_1_2 (used ++ unused)
    /\ StronglySorted (fun a b => value a >= value b) used.
Proof.
  destruct (addUTXOsToFund 3 0%nat 5000 1 true (world_of pool_3_1_2))
    as [[o w']|] eqn:Hrun; [|vm_compute in Hrun; discriminate].
  destruct (addUTXOsToFund_consumes_largest_first 3 (world_of pool_3_1_2) w' 0%nat
              pool_3_1_2 5000 1 true o eq_refl Hrun) as (used & unused & Hp & _ & Hs).
  exists o, w', used, unused. split; [reflexivity|]. split; [exact Hp|exact Hs].
Defined.


Lemma addUTXOsToFund_keeps_pool_elements_witness :
  exists o w' pool',
    addUTXOsToFund 3 0%nat 5000 1 true (world_of pool_3_1_2) = Some (o, w')
    /\ arrays w' !! 0%nat = Some pool'
    /\ Permutation pool_3_1_2 pool'.
Proof.
  destruct (addUTXOsToFund 3 0%nat 5000 1 true (world_of pool_3_1_2))
    as [[o w']|] eqn:Hrun; [|vm_compute in Hrun; discriminate].
  destruct (addUTXOsToFund_keeps_pool_elements 3 (world_of pool_3_1_2) w' 0%nat
              pool_3_1_2 5000 1 true o eq_refl Hrun) as (pool' & Ha & Hp & _).
  exists o, w', pool'. split; [reflexivity|]. split; [exact Ha|exact Hp].
Defined.

Lemma addUTXOsToFund_outcome_by_values_witness :
  fst <$> addUTXOsToFund 3 0%nat 5000 1 true (world_of pool_3_1_2)
  = fst <$> addUTXOsToFund 3 0%nat 5000 1 true
              {| builder := three_inputs; arrays := [pool_1_2_3] |}.
Proof.
  apply (addUTXOsToFund_outcome_by_values 3 (world_of pool_3_1_2)
           {| builder := three_inputs; arrays := [pool_1_2_3] |} 0%nat 0%nat
           pool_3_1_2 pool_1_2_3 5000 1 true eq_refl eq_refl).
  cbn [map pool_3_1_2 pool_1_2_3 value].
  apply Permutation_cons_app with (l1 := [1000; 2000]) (l2 := []).
  reflexivity.
Defined.

(** * Part IV: the funder in the code's arithmetic *)

(** ** Doubles are exact on the integers below [2^53] *)

Section Exactness.

Import F64.

Lemma nearest_even_multiple (k n : Z) :
  0 <= k -> n mod 2 ^ k = 0 -> nearest_even k n = n.
Proof.
  intros Hk Hm. unfold nearest_even. cbv zeta. rewrite Hm, Z.mul_0_r.
  assert (0 < 2 ^ k) by (apply Z.pow_pos_nonneg; lia).
  destruct (Z.ltb_spec 0 (2 ^ k)) as [_|?]; [|lia].
  assert (Hnz : 2 ^ k <> 0) by lia.
  pose proof (Z.div_mod n (2 ^ k) Hnz). lia.
Qed.

Lemma round_exact (kmin m e : Z) :
  safe m -> 0 <= kmin <= e -> round kmin (m * 2 ^ e) = m * 2 ^ e.
Proof.
  unfold safe. intros Hm Hk. unfold round.
  set (k := Z.max kmin (Z.log2 (Z.abs (m * 2 ^ e)) - 52)).
  assert (H2e : 0 < 2 ^ e) by (apply Z.pow_pos_nonneg; lia).
  assert (Hk0 : 0 <= k) by (unfold k; lia).
  assert (Hke : k <= e).
  { unfold k. apply Z.max_lub; [lia|].
    destruct (Z.eq_dec m 0) as [->|Hm0];
      [rewrite Z.mul_0_l; change (Z.log2 (Z.abs 0)) with 0; lia|].
    rewrite Z.abs_mul, (Z.abs_eq (2 ^ e)) by lia.
    rewrite Z.log2_mul_pow2 by lia.
    assert (Z.log2 (Z.abs m) < 53) by (apply Z.log2_lt_pow2; lia). lia. }
  apply nearest_even_multiple; [exact Hk0|].
  replace (m * 2 ^ e) with (m * 2 ^ (e - k) * 2 ^ k).
  - apply Z.mod_mul. apply Z.pow_nonzero; lia.
  - rewrite <- Z.mul_assoc, <- Z.pow_add_r by lia. f_equal. f_equal. lia.
Qed.

Lemma scaled_of_Z (n : Z) : safe n -> scaled (of_Z n) = n * 2 ^ 1074.
Proof. intros H. unfold of_Z. cbn [scaled]. apply round_exact; [exact H|lia]. Qed.

Lemma add_exact (a b : Z) :
  safe a -> safe b -> safe (a + b) -> add (of_Z a) (of_Z b) = of_Z (a + b).
Proof.
  intros Ha Hb Hab. unfold add. rewrite !scaled_of_Z by assumption.
  unfold of_Z. f_equal. f_equal. lia.
Qed.

Lemma sub_exact (a b : Z) :
  safe a -> safe b -> safe (a - b) -> sub (of_Z a) (of_Z b) = of_Z (a - b).
Proof.
  intros Ha Hb Hab. unfold sub. rewrite !scaled_of_Z by assumption.
  unfold of_Z. f_equal. f_equal. lia.
Qed.

Lemma mul_exact (a b : Z) :
  safe a -> safe b -> safe (a * b) -> mul (of_Z a) (of_Z b) = of_Z (a * b).
Proof.
  intros Ha Hb Hab. unfold mul. rewrite !scaled_of_Z by assumption.
  replace (a * 2 ^ 1074 * (b * 2 ^ 1074)) with (a * b * 2 ^ 2148)
    by (change (2 ^ 2148) with (2 ^ 1074 * 2 ^ 1074); lia).
  rewrite round_exact by (assumption || lia).
  change (2 ^ 2148) with (2 ^ 1074 * 2 ^ 1074).
  rewrite Z.mul_assoc, Z.div_mul by (apply Z.pow_nonzero; lia).
  unfold of_Z. f_equal. symmetry. apply round_exact; [exact Hab|lia].
Qed.

Lemma geb_exact (a b : Z) :
  safe a -> safe b -> geb (of_Z a) (of_Z b) = (a >=? b).
Proof.
  intros Ha Hb. unfold geb. rewrite !scaled_of_Z by assumption.
  assert (0 < 2 ^ 1074) by (apply Z.pow_pos_nonneg; lia).
  rewrite !Z.geb_leb.
  destruct (Z.leb_spec b a) as [L|L], (Z.leb_spec (b * 2 ^ 1074) (a * 2 ^ 1074)) as [L'|L'];
    try reflexivity; nia.
Qed.

Lemma sign_exact (n : Z) : safe n -> (sign (of_Z n) <=? 0) = (n <=? 0).
Proof.
  intros Hn. unfold sign. rewrite scaled_of_Z by exact Hn.
  assert (0 < 2 ^ 1074) by (apply Z.pow_pos_nonneg; lia).
  destruct (Z.leb_spec n 0) as [L|L], (Z.leb_spec (Z.sgn (n * 2 ^ 1074)) 0) as [L'|L'];
    try reflexivity.
  - assert (n * 2 ^ 1074 <= 0) by nia. lia.
  - assert (0 < n * 2 ^ 1074) by nia. lia.
Qed.

Lemma of_Z_nonneg (n : Z) : safe n -> (0 <= scaled (of_Z n) <-> 0 <= n).
Proof.
  intros Hn. rewrite scaled_of_Z by exact Hn.
  assert (0 < 2 ^ 1074) by (apply Z.pow_pos_nonneg; lia). split; nia.
Qed.

Lemma of_Z_inj (a b : Z) : safe a -> safe b -> of_Z a = of_Z b -> a = b.
Proof.
  intros Ha Hb E. apply (f_equal scaled) in E. rewrite !scaled_of_Z in E by assumption.
  assert (0 < 2 ^ 1074) by (apply Z.pow_pos_nonneg; lia). nia.
Qed.

End Exactness.

(** ** On exact inputs the code's arithmetic computes [fund] *)

Lemma insert_by_map {A B : Type} (f : A -> B) (cmp1 : A -> A -> Z) (cmp2 : B -> B -> Z)
    (x : A) (l : list A) :
  (forall y, In y l -> (cmp2 (f x) (f y) <=? 0) = (cmp1 x y <=? 0)) ->
  insert_by cmp2 (f x) (map f l) = map f (insert_by cmp1 x l).
Proof.
  induction l as [|y l IH]; intros H; [reflexivity|].
  cbn [map insert_by]. rewrite (H y (or_introl eq_refl)).
  destruct (cmp1 x y <=? 0); [reflexivity|].
  cbn [map]. f_equal. apply IH. intros z Hz. apply H. now right.
Qed.

Lemma sort_by_map {A B : Type} (f : A -> B) (cmp1 : A -> A -> Z) (cmp2 : B -> B -> Z)
    (l : list A) :
  (forall x y, In x l -> In y l -> (cmp2 (f x) (f y) <=? 0) = (cmp1 x y <=? 0)) ->
  sort_by cmp2 (map f l) = map f (sort_by cmp1 l).
Proof.
  induction l as [|x l IH]; intros H; [reflexivity|].
  cbn [map sort_by fold_right]. fold (sort_by cmp2 (map f l)) (sort_by cmp1 l).
  rewrite IH by (intros a b Ha Hb; apply H; now right).
  apply insert_by_map. intros y Hy. apply H; [now left|right].
  eapply Permutation_in; [symmetry; apply sort_by_Permutation|exact Hy].
Qed.

Lemma filter_map_ext {A B : Type} (f : A -> B) (p1 : A -> bool) (p2 : B -> bool)
    (l : list A) :
  (forall x, In x l -> p2 (f x) = p1 x) ->
  List.filter p2 (map f l) = map f (List.filter p1 l).
Proof.
  induction l as [|x l IH]; intros H; [reflexivity|].
  cbn [map List.filter]. rewrite (H x (or_introl eq_refl)).
  rewrite IH by (intros y Hy; apply H; now right).
  now destruct (p1 x).
Qed.

Lemma value_le_total (pool : list UTXO) (utxo : UTXO) :
  (forall u, In u pool -> 0 <= value u) -> In utxo pool ->
  value utxo <= total_value pool.
Proof.
  induction pool as [|x pool IH]; intros Hnn Hin; [destruct Hin|].
  cbn [total_value fold_right]. fold (total_value pool).
  pose proof (Hnn x (or_introl eq_refl)).
  assert (0 <= total_value pool)
    by (apply total_value_nonneg; intros u Hu; apply Hnn; now right).
  destruct Hin as [->|Hin]; [lia|].
  assert (value utxo <= total_value pool); [|lia].
  apply IH; [|exact Hin]. intros u Hu. apply Hnn. now right.
Qed.

Lemma inputBytes_nonneg (x : option txPoint) : 0 <= inputBytes x.
Proof.
  unfold inputBytes. change TX_INPUT_BASE with 41. change TX_INPUT_PUBKEYHASH with 107.
  destruct x as [[[s|]]|]; try lia.
  destruct (buffer_length s >? 0); unfold buffer_length; lia.
Qed.

Lemma outputBytes_nonneg (x : option txPoint) : 0 <= outputBytes x.
Proof.
  unfold outputBytes. change TX_OUTPUT_BASE with 9. change TX_OUTPUT_PUBKEYHASH with 25.
  destruct x as [[[s|]]|]; try lia.
  destruct (buffer_length s >? 0); unfold buffer_length; lia.
Qed.

Lemma fold_left_add_nonneg {A : Type} (f : A -> Z) (l : list A) :
  (forall x, 0 <= f x) -> 0 <= fold_left (fun a x => a + f x) l 0.
Proof.
  intros H. induction l as [|x l IH] using rev_ind; [cbn; lia|].
  rewrite fold_left_app. cbn [fold_left]. specialize (H x). lia.
Qed.

Lemma estimateTXBytes_overhead txIn (a b : nat) : 10 <= estimateTXBytes txIn a b.
Proof.
  unfold estimateTXBytes, transactionBytes. change TX_EMPTY_SIZE with 10.
  pose proof (fold_left_add_nonneg inputBytes
                (map (fun i => Some (input_point i)) (ins (getTransaction txIn)) ++ dummies a)
                inputBytes_nonneg).
  pose proof (fold_left_add_nonneg outputBytes
                (map (fun o => Some (output_point o)) (outs (getTransaction txIn)) ++ dummies b)
                outputBytes_nonneg).
  lia.
Qed.

Section FundExact.

Variables (feeRate : Z) (fundNewFees : bool).

Lemma newFees64_exact (txB : TransactionBuilder) (pool : list UTXO) (amountToFund : Z) :
  exact_inputs txB pool amountToFund feeRate ->
  newFees64 txB (F64.of_Z feeRate) = F64.of_Z (newFees txB feeRate).
Proof.
  intros (Hrate & Hnn & Hsum & Hest).
  pose proof (total_value_nonneg pool Hnn) as Htot.
  pose proof (estimateTXBytes_overhead (inr txB) 0 0) as H0.
  unfold newFees64, newFees.
  rewrite (estimateTXBytes_additional (inr txB) (length pool + 1) 0) in Hest.
  rewrite (estimateTXBytes_additional (inr txB) 1 0).
  change (inputBytes None) with 148 in *.
  rewrite sub_exact by (unfold F64.safe; lia).
  replace (estimateTXBytes (inr txB) 0 0 + Z.of_nat 1 * 148 + Z.of_nat 0 * outputBytes None
           - estimateTXBytes (inr txB) 0 0) with 148 by lia.
  apply mul_exact; unfold F64.safe; nia.
Qed.

Lemma exact_inputs_recurse (txB : TransactionBuilder) (pool : list UTXO)
    (amountToFund : Z) (largest : UTXO) (rest : list UTXO) :
  exact_inputs txB pool amountToFund feeRate ->
  sort_by descending pool = largest :: rest ->
  exact_inputs (addInput txB (tx_hash largest) (tx_output_n largest)) rest
    (remain_of largest amountToFund (newFees txB feeRate) fundNewFees) feeRate.
Proof.
  intros (Hrate & Hnn & Hsum & Hest) Hd.
  destruct (descending_head _ _ _ Hd) as [Hlg _].
  destruct (descending_tail _ _ _ Hd) as (Hlen & Htot & Hrest).
  pose proof (Hnn largest Hlg) as HL.
  split; [exact Hrate|]. split; [intros u Hu; apply Hnn, Hrest, Hu|]. split.
  - rewrite newFees_const. unfold remain_of. rewrite Hlen, Htot in Hsum.
    rewrite Nat2Z.inj_succ in Hsum.
    assert (0 <= Z.of_nat (length rest) * (feeRate * 148)) by nia.
    destruct fundNewFees; lia.
  - rewrite (estimateTXBytes_more_inputs txB [largest]
               (addInput txB (tx_hash largest) (tx_output_n largest))
               (length rest + 1) 0 eq_refl eq_refl).
    rewrite (estimateTXBytes_additional (inr txB) (length rest + 1) 0).
    rewrite (estimateTXBytes_additional (inr txB) (length pool + 1) 0) in Hest.
    rewrite Hlen in Hest. cbn [length]. change (inputBytes None) with 148 in *.
    lia.
Qed.

(** One call of [fund64] on exact inputs. *)
Lemma fund64_step (fuel : nat) (txB : TransactionBuilder) (pool : list UTXO)
    (amountToFund : Z) :
  pool <> [] ->
  exact_inputs txB pool amountToFund feeRate ->
  let nf := newFees txB feeRate in
  let threshold := utxoThreshhold amountToFund nf fundNewFees in
  fund64 fuel txB (map to64 pool) (F64.of_Z amountToFund) (F64.of_Z feeRate) fundNewFees
  = match sort_by ascending (List.filter (meets threshold) pool) with
    | selected :: _ =>
        Some (Returned64 (F64.of_Z (change_of selected amountToFund nf fundNewFees)),
              addInput txB (tx_hash selected) (tx_output_n selected))
    | [] =>
        match sort_by descending pool with
        | largest :: rest =>
            if nf >=? value largest
            then Some (Threw64 (NotEnoughFundsError64 (F64.of_Z amountToFund)), txB)
            else
              match fuel with
              | O => None
              | S fuel' =>
                  fund64 fuel' (addInput txB (tx_hash largest) (tx_output_n largest))
                         (map to64 rest)
                         (F64.of_Z (remain_of largest amountToFund nf fundNewFees))
                         (F64.of_Z feeRate) fundNewFees
              end
        | [] => Some (Threw64 TypeError64, txB)
        end
    end.
Proof.
  intros Hne Hex nf threshold.
  pose proof (newFees64_exact txB pool amountToFund Hex) as Enf. fold nf in Enf.
  destruct Hex as (Hrate & Hnn & Hsum & Hest).
  pose proof (total_value_nonneg pool Hnn) as Htot.
  assert (Hval : forall u, In u pool -> 0 <= value u <= total_value pool)
    by (intros u Hu; split; [now apply Hnn|now apply value_le_total]).
  assert (Hnf : nf = feeRate * 148) by apply newFees_const.
  assert (Hbound : 0 <= nf /\ Z.abs amountToFund + total_value pool + nf < 2 ^ 53)
    by (rewrite Hnf; nia).
  destruct Hbound as [Hnf0 Hbound].
  assert (Ethr : utxoThreshhold64 (F64.of_Z amountToFund) (F64.of_Z nf) fundNewFees
                 = F64.of_Z threshold).
  { unfold utxoThreshhold64, threshold, utxoThreshhold. destruct fundNewFees; [|reflexivity].
    apply add_exact; unfold F64.safe; lia. }
  assert (Hthr : F64.safe threshold)
    by (unfold F64.safe, threshold, utxoThreshhold; destruct fundNewFees; lia).
  assert (Efilter : List.filter (meets64 (F64.of_Z threshold)) (map to64 pool)
                    = map to64 (List.filter (meets threshold) pool)).
  { apply filter_map_ext. intros u Hu. unfold meets64, meets, to64. cbn [value64].
    apply geb_exact; [|exact Hthr]. specialize (Hval u Hu). unfold F64.safe. lia. }
  assert (Easc : forall l, (forall u, In u l -> In u pool) ->
             sort_by ascending64 (map to64 l) = map to64 (sort_by ascending l)).
  { intros l Hl. apply sort_by_map. intros x y Hx Hy.
    pose proof (Hval x (Hl x Hx)). pose proof (Hval y (Hl y Hy)).
    unfold ascending64, ascending, to64. cbn [value64].
    rewrite sub_exact by (unfold F64.safe; lia).
    apply sign_exact. unfold F64.safe. lia. }
  assert (Edesc : sort_by descending64 (map to64 pool) = map to64 (sort_by descending pool)).
  { apply sort_by_map. intros x y Hx Hy.
    pose proof (Hval x Hx). pose proof (Hval y Hy).
    unfold descending64, descending, to64. cbn [value64].
    rewrite sub_exact by (unfold F64.safe; lia).
    apply sign_exact. unfold F64.safe. lia. }
  assert (E : fund64 fuel txB (map to64 pool) (F64.of_Z amountToFund) (F64.of_Z feeRate)
                fundNewFees
              = match sort_by ascending64
                        (List.filter (meets64 (F64.of_Z threshold)) (map to64 pool)) with
                | selected :: _ =>
                    Some (Returned64
                            (change_of64 selected (F64.of_Z amountToFund) (F64.of_Z nf)
                               fundNewFees),
                          addInput txB (tx_hash64 selected) (tx_output_n64 selected))
                | [] =>
                    match sort_by descending64 (map to64 pool) with
                    | largest :: rest =>
                        if F64.geb (F64.of_Z nf) (value64 largest)
                        then Some (Threw64 (NotEnoughFundsError64 (F64.of_Z amountToFund)),
                                   txB)
                        else
                          match fuel with
                          | O => None
                          | S fuel' =>
                              fund64 fuel'
                                (addInput txB (tx_hash64 largest) (tx_output_n64 largest))
                                rest
                                (remain_of64 largest (F64.of_Z amountToFund) (F64.of_Z nf)
                                   fundNewFees)
                                (F64.of_Z feeRate) fundNewFees
                          end
                    | [] => Some (Threw64 TypeError64, txB)
                    end
                end).
  { destruct pool as [|u0 pool0]; [congruence|].
    rewrite <- Ethr, <- Enf. cbn [map]. now destruct fuel. }
  rewrite E, Efilter, Easc, Edesc
    by (intros u Hu; apply List.filter_In in Hu; tauto).
  destruct (sort_by ascending (List.filter (meets threshold) pool)) as [|sel oth] eqn:Hs.
  - cbn [map]. destruct (sort_by descending pool) as [|lg rest] eqn:Hd; [reflexivity|].
    cbn [map]. destruct (descending_head _ _ _ Hd) as [Hlg _].
    pose proof (Hval lg Hlg) as HL.
    unfold to64 at 1. cbn [value64].
    rewrite geb_exact by (unfold F64.safe; lia).
    destruct (nf >=? value lg); [reflexivity|].
    destruct fuel as [|fuel']; [reflexivity|].
    f_equal. unfold remain_of64, remain_of, to64. cbn [value64].
    rewrite sub_exact by (unfold F64.safe; lia).
    destruct fundNewFees; [|reflexivity].
    apply add_exact; unfold F64.safe; lia.
  - cbn [map]. apply sufficient_head in Hs as (Hsel & _ & _).
    pose proof (Hval sel Hsel) as HS.
    f_equal. f_equal. f_equal.
    unfold change_of64, change_of, to64. cbn [value64].
    rewrite sub_exact by (unfold F64.safe; lia).
    destruct fundNewFees; [|reflexivity].
    apply sub_exact; unfold F64.safe; lia.
Qed.

Lemma fund_step (fuel : nat) (txB : TransactionBuilder) (pool : list UTXO)
    (amountToFund : Z) :
  pool <> [] ->
  let nf := newFees txB feeRate in
  let threshold := utxoThreshhold amountToFund nf fundNewFees in
  fund fuel txB pool amountToFund feeRate fundNewFees
  = match sort_by ascending (List.filter (meets threshold) pool) with
    | selected :: _ =>
        Some (Returned (change_of selected amountToFund nf fundNewFees),
              addInput txB (tx_hash selected) (tx_output_n selected))
    | [] =>
        match sort_by descending pool with
        | largest :: rest =>
            if nf >=? value largest
            then Some (Threw (NotEnoughFundsError amountToFund), txB)
            else
              match fuel with
              | O => None
              | S fuel' =>
                  fund fuel' (addInput txB (tx_hash largest) (tx_output_n largest))
                       rest (remain_of largest amountToFund nf fundNewFees)
                       feeRate fundNewFees
              end
        | [] => Some (Threw TypeError, txB)
        end
    end.
Proof. intros Hne nf threshold. destruct pool; [congruence|]. now destruct fuel. Qed.

(** On exact inputs, [fund64] returns what [fund] returns, as doubles. *)
Lemma fund64_exact (fuel : nat) :
  forall (txB : TransactionBuilder) (pool : list UTXO) (amountToFund : Z),
    exact_inputs txB pool amountToFund feeRate ->
    fund64 fuel txB (map to64 pool) (F64.of_Z amountToFund) (F64.of_Z feeRate) fundNewFees
    = match fund fuel txB pool amountToFund feeRate fundNewFees with
      | Some (o, txB') => Some (outcome_to64 o, txB')
      | None => None
      end.
Proof.
  induction fuel as [|fuel IH]; intros txB pool amountToFund Hex.
  all: destruct pool as [|u0 pool0]; [reflexivity|].
  all: assert (Hne : u0 :: pool0 <> []) by discriminate.
  all: rewrite (fund64_step _ txB (u0 :: pool0) amountToFund Hne Hex).
  all: rewrite (fund_step _ txB (u0 :: pool0) amountToFund Hne).
  all: destruct (sort_by ascending _) as [|sel oth]; [|reflexivity].
  all: destruct (sort_by descending (u0 :: pool0)) as [|lg rest] eqn:Hd; [reflexivity|].
  all: destruct (newFees txB feeRate >=? value lg); [reflexivity|].
  - reflexivity.
  - apply IH. now apply (exact_inputs_recurse txB (u0 :: pool0)).
Qed.

(** The change and the amount in the error are integers below [2^53]. *)
Lemma fund_outcome_safe (fuel : nat) :
  forall (txB txB' : TransactionBuilder) (pool : list UTXO) (amountToFund : Z)
         (o : outcome Z),
    exact_inputs txB pool amountToFund feeRate ->
    fund fuel txB pool amountToFund feeRate fundNewFees = Some (o, txB') ->
    match o with
    | Returned change => F64.safe change
    | Threw (NotEnoughFundsError amount) => F64.safe amount
    | Threw _ => True
    end.
Proof.
  assert (Hamt : forall txB pool amountToFund,
             exact_inputs txB pool amountToFund feeRate ->
             0 <= total_value pool
             /\ 0 <= newFees txB feeRate
             /\ Z.abs amountToFund + total_value pool + newFees txB feeRate < 2 ^ 53).
  { intros txB pool amountToFund (Hrate & Hnn & Hsum & _).
    pose proof (total_value_nonneg pool Hnn). rewrite newFees_const. nia. }
  induction fuel as [|fuel IH]; intros txB txB' pool amountToFund o Hex Hf.
  all: destruct (Hamt _ _ _ Hex) as (Htot & Hnf & Hsum).
  all: destruct pool as [|u0 pool0];
    [cbn [fund] in Hf; injection Hf as <- _; unfold F64.safe; lia|].
  all: assert (Hne : u0 :: pool0 <> []) by discriminate.
  all: rewrite (fund_step _ txB (u0 :: pool0) amountToFund Hne) in Hf.
  all: destruct (sort_by ascending _) as [|sel oth] eqn:Hs;
    [| injection Hf as <- _; apply sufficient_head in Hs as (Hsel & _ & _);
       pose proof (proj1 (proj2 Hex) sel Hsel);
       pose proof (value_le_total _ _ (proj1 (proj2 Hex)) Hsel);
       unfold F64.safe, change_of; destruct fundNewFees; lia ].
  all: destruct (sort_by descending (u0 :: pool0)) as [|lg rest] eqn:Hd;
    [now injection Hf as <- _|].
  all: destruct (newFees txB feeRate >=? value lg);
    [injection Hf as <- _; unfold F64.safe; lia|].
  - discriminate.
  - eapply IH; [|exact Hf]. now apply (exact_inputs_recurse txB (u0 :: pool0)).
Qed.

(** What [fund64] returns on exact inputs, read back as integers. *)
Lemma fund64_exact_inv (fuel : nat) (txB txB' : TransactionBuilder) (pool : list UTXO)
    (amountToFund : Z) (o64 : outcome64) :
  exact_inputs txB pool amountToFund feeRate ->
  fund64 fuel txB (map to64 pool) (F64.of_Z amountToFund) (F64.of_Z feeRate) fundNewFees
  = Some (o64, txB') ->
  exists o : outcome Z,
    fund fuel txB pool amountToFund feeRate fundNewFees = Some (o, txB')
    /\ o64 = outcome_to64 o
    /\ match o with
       | Returned change => F64.safe change
       | Threw (NotEnoughFundsError amount) => F64.safe amount
       | Threw _ => True
       end.
Proof.
  intros Hex H. rewrite (fund64_exact fuel txB pool amountToFund Hex) in H.
  destruct (fund fuel txB pool amountToFund feeRate fundNewFees) as [[o b]|] eqn:Hf;
    [|discriminate].
  injection H as <- <-. exists o. split; [reflexivity|]. split; [reflexivity|].
  exact (fund_outcome_safe fuel txB b pool amountToFund o Hex Hf).
Qed.

End FundExact.

(** ** The funder on exact inputs *)

Lemma outcome_to64_Returned (o : outcome Z) (change : F64.t) :
  Returned64 change = outcome_to64 o ->
  exists c, o = Returned c /\ change = F64.of_Z c.
Proof.
  destruct o as [c|[a| |m]]; cbn [outcome_to64]; intros H; try discriminate.
  injection H as ->. now exists c.
Qed.

Lemma outcome_to64_NotEnoughFunds (o : outcome Z) (amount : F64.t) :
  Threw64 (NotEnoughFundsError64 amount) = outcome_to64 o ->
  exists a, o = Threw (NotEnoughFundsError a) /\ amount = F64.of_Z a.
Proof.
  destruct o as [c|[a| |m]]; cbn [outcome_to64]; intros H; try discriminate.
  injection H as ->. now exists a.
Qed.

(** C1 (amended): on integer inputs that doubles hold exactly (values and
    fee rate not negative, amount, pool and fees together below [2^53]), for
    every pool that is not empty and whose total value is at least
    [amountToFund] plus the fee for adding all of the pool's UTXOs as
    inputs, every [amountToFund >= 0] and every positive [feeRate], the call
    returns without raising; and every value that a call returns on such
    inputs, with or without [fundNewFees], is a non-negative integer. *)
Theorem addUTXOsToFund_funds (fuel : nat) (txB : TransactionBuilder)
    (pool : list UTXO) (amountToFund feeRate : Z) (fundNewFees : bool) :
  exact_inputs txB pool amountToFund feeRate ->
  (length pool <= fuel)%nat ->
  (pool <> [] ->
   amountToFund >= 0 ->
   feeRate > 0 ->
   total_value pool >= amountToFund + worstCaseFee txB pool feeRate ->
   exists change txB',
     fund64 fuel txB (map to64 pool) (F64.of_Z amountToFund) (F64.of_Z feeRate) fundNewFees
     = Some (Returned64 change, txB'))
  /\ (forall budget change txB',
        fund64 budget txB (map to64 pool) (F64.of_Z amountToFund) (F64.of_Z feeRate)
          fundNewFees
        = Some (Returned64 change, txB') ->
        F64.geb change (F64.of_Z 0) = true
        /\ exists c, change = F64.of_Z c /\ 0 <= c < 2 ^ 53).
Proof.
  intros Hex Hlen. split.
  - intros Hne Hamt Hrate Htot.
    destruct (fund_succeeds feeRate fundNewFees fuel ltac:(lia) txB pool amountToFund
                Hlen ltac:(lia) (or_introl Hne) Htot) as (c & txB' & Hf).
    exists (F64.of_Z c), txB'.
    now rewrite (fund64_exact feeRate fundNewFees fuel txB pool amountToFund Hex), Hf.
  - intros budget change txB' H.
    destruct (fund64_exact_inv _ _ _ _ _ _ _ _ Hex H) as (o & Hf & Ho & Hsafe).
    apply outcome_to64_Returned in Ho as (c & -> & ->).
    apply fund_change_nonneg in Hf. unfold F64.safe in Hsafe.
    split; [|exists c; split; [reflexivity|lia]].
    rewrite geb_exact by (unfold F64.safe; lia). lia.
Qed.

(** The restriction to integer fee rates is needed.  At the fee rate
    [99/148] (the double nearest to it) and the amount [5000], the pool of one
    UTXO worth [5099] covers, as the code computes them, the amount and the
    fee of its input; the call returns the change [-2^-46]. *)
Lemma addUTXOsToFund_fractional_rate_negative_change :
  F64.geb (F64.of_Z 5099)
          (F64.add (F64.of_Z 5000) (F64.mul rate_99_148 (F64.of_Z 148))) = true
  /\ fund64 1 empty_builder [utxo64 5099 "aa"] (F64.of_Z 5000) rate_99_148 true
     = Some (Returned64 (F64.of_parts (-1) (-46)), addInput empty_builder "aa" 0)
  /\ F64.geb (F64.of_parts (-1) (-46)) (F64.of_Z 0) = false.
Proof. split; [|split]; vm_compute; reflexivity. Qed.

(** At the fee rate [1/3] and the amount [3746], the pool [1675, 1070, 1149]
    covers, as the code computes them, the amount and the fee of its three
    inputs; the call adds the three and raises, [13 * 2^-46] short. *)
Lemma addUTXOsToFund_fractional_rate_raises :
  F64.geb (F64.of_Z (1675 + 1070 + 1149))
          (F64.add (F64.of_Z 3746) (F64.mul rate_1_3 (F64.of_Z (3 * 148)))) = true
  /\ fund64 3 empty_builder [utxo64 1675 "aa"; utxo64 1070 "bb"; utxo64 1149 "cc"]
       (F64.of_Z 3746) rate_1_3 true
     = Some (Threw64 (NotEnoughFundsError64 (F64.of_parts 13 (-46))),
             addInput (addInput (addInput empty_builder "aa" 0) "cc" 0) "bb" 0).
Proof. split; vm_compute; reflexivity. Qed.

(** X3: on exact inputs, when a call returns, the change is an integer, the
    inputs it appended reference UTXOs taken from the pool, each at most
    once, and their values add up to exactly [amountToFund] plus the
    returned change plus, when [fundNewFees] is set, the fee rate times the
    growth of the size estimate of the builder. *)
Theorem addUTXOsToFund_returns_accounted (fuel : nat) (txB txB' : TransactionBuilder)
    (pool : list UTXO) (amountToFund feeRate : Z) (fundNewFees : bool)
    (change : F64.t) :
  exact_inputs txB pool amountToFund feeRate ->
  fund64 fuel txB (map to64 pool) (F64.of_Z amountToFund) (F64.of_Z feeRate) fundNewFees
  = Some (Returned64 change, txB') ->
  exists (c : Z) (used unused : list UTXO),
    change = F64.of_Z c /\ Z.abs c < 2 ^ 53
    /\ used <> []
    /\ Permutation pool (used ++ unused)
    /\ ins (__tx txB') = ins (__tx txB) ++ map input_of used
    /\ total_value used
       = amountToFund + c
         + (if fundNewFees
            then feeRate * (estimateTXBytes (inr txB') 0 0 - estimateTXBytes (inr txB) 0 0)
            else 0).
Proof.
  intros Hex H.
  destruct (fund64_exact_inv _ _ _ _ _ _ _ _ Hex H) as (o & Hf & Ho & Hsafe).
  apply outcome_to64_Returned in Ho as (c & -> & ->).
  destruct (fund_accounts _ _ _ _ _ _ _ _ Hf)
    as (used & unused & Hp & Hi & Ho & _ & Hne & Hacc).
  exists c, used, unused. split; [reflexivity|]. split; [exact Hsafe|].
  split; [exact Hne|]. split; [exact Hp|]. split; [exact Hi|].
  now rewrite <- (fees_funded_estimate feeRate fundNewFees _ _ used Hi Ho).
Qed.

(** X4: on exact inputs, when a call raises [NotEnoughFundsError], the
    inputs it appended before raising stay in the builder, and the amount in
    the error is the integer still unfunded: [amountToFund] minus the values
    of the UTXOs added, plus, when [fundNewFees] is set, the fee for the
    inputs added. *)
Theorem addUTXOsToFund_raises_accounted (fuel : nat) (txB txB' : TransactionBuilder)
    (pool : list UTXO) (amountToFund feeRate : Z) (fundNewFees : bool)
    (amount : F64.t) :
  exact_inputs txB pool amountToFund feeRate ->
  fund64 fuel txB (map to64 pool) (F64.of_Z amountToFund) (F64.of_Z feeRate) fundNewFees
  = Some (Threw64 (NotEnoughFundsError64 amount), txB') ->
  exists (a : Z) (used unused : list UTXO),
    amount = F64.of_Z a /\ Z.abs a < 2 ^ 53
    /\ Permutation pool (used ++ unused)
    /\ ins (__tx txB') = ins (__tx txB) ++ map input_of used
    /\ a = amountToFund - total_value used
           + (if fundNewFees
              then feeRate * (estimateTXBytes (inr txB') 0 0
                              - estimateTXBytes (inr txB) 0 0)
              else 0).
Proof.
  intros Hex H.
  destruct (fund64_exact_inv _ _ _ _ _ _ _ _ Hex H) as (o & Hf & Ho & Hsafe).
  apply outcome_to64_NotEnoughFunds in Ho as (a & -> & ->).
  destruct (fund_accounts _ _ _ _ _ _ _ _ Hf)
    as (used & unused & Hp & Hi & Ho & _ & Hacc).
  exists a, used, unused. split; [reflexivity|]. split; [exact Hsafe|].
  split; [exact Hp|]. split; [exact Hi|].
  rewrite <- (fees_funded_estimate feeRate fundNewFees _ _ used Hi Ho). lia.
Qed.

(** X14: on exact inputs, the amount that [NotEnoughFundsError] carries is
    [amountToFund] itself when the call raised without touching the builder,
    and otherwise, when inputs were added before it raised, a positive
    integer smaller than [amountToFund]. *)
Theorem addUTXOsToFund_error_amount (fuel : nat) (txB txB' : TransactionBuilder)
    (pool : list UTXO) (amountToFund feeRate : Z) (fundNewFees : bool)
    (amount : F64.t) :
  exact_inputs txB pool amountToFund feeRate ->
  fund64 fuel txB (map to64 pool) (F64.of_Z amountToFund) (F64.of_Z feeRate) fundNewFees
  = Some (Threw64 (NotEnoughFundsError64 amount), txB') ->
  exists a : Z,
    amount = F64.of_Z a
    /\ ((txB' = txB /\ a = amountToFund)
        \/ ((length (ins (__tx txB)) < length (ins (__tx txB')))%nat
            /\ 0 < a < amountToFund)).
Proof.
  intros Hex H.
  destruct (fund64_exact_inv _ _ _ _ _ _ _ _ Hex H) as (o & Hf & Ho & _).
  apply outcome_to64_NotEnoughFunds in Ho as (a & -> & ->).
  exists a. split; [reflexivity|].
  apply (fund_error_amount feeRate fundNewFees fuel ltac:(destruct Hex; lia) _ _ _ _ _ Hf).
Qed.

(** Beyond [2^53] the amount in the error need not shrink: with the amount
    [2^54], a UTXO worth [1] is added and the error carries the amount
    unchanged. *)
Lemma addUTXOsToFund_large_amount_unchanged :
  fund64 1 empty_builder [utxo64 1 "aa"] (F64.of_Z (2 ^ 54)) (F64.of_Z 0) true
  = Some (Threw64 (NotEnoughFundsError64 (F64.of_Z (2 ^ 54))),
          addInput empty_builder "aa" 0).
Proof. vm_compute. reflexivity. Qed.

(** ** The properties of this part at concrete inputs *)

Lemma pool_3_1_2_exact (amountToFund : Z) :
  Z.abs amountToFund <= 10000 ->
  exact_inputs empty_builder pool_3_1_2 amountToFund 1.
Proof.
  intros H. split; [lia|]. split; [intros u [<-|[<-|[<-|[]]]]; cbn; lia|].
  change (total_value pool_3_1_2) with 6000.
  change (Z.of_nat (length pool_3_1_2)) with 3.
  change (estimateTXBytes (inr empty_builder) (length pool_3_1_2 + 1) 0) with 602.
  change (2 ^ 53) with 9007199254740992. lia.
Qed.

Lemma addUTXOsToFund_funds_witness :
  exact_inputs empty_builder pool_3_1_2 5000 1
  /\ total_value pool_3_1_2 >= 5000 + worstCaseFee empty_builder pool_3_1_2 1
  /\ (exists change txB',
        fund64 3 empty_builder (map to64 pool_3_1_2) (F64.of_Z 5000) (F64.of_Z 1) true
        = Some (Returned64 change, txB'))
  /\ (forall budget change txB',
        fund64 budget empty_builder (map to64 pool_3_1_2) (F64.of_Z 5000) (F64.of_Z 1) true
        = Some (Returned64 change, txB') ->
        F64.geb change (F64.of_Z 0) = true
        /\ exists c, change = F64.of_Z c /\ 0 <= c < 2 ^ 53).
Proof.
  assert (H1 : exact_inputs empty_builder pool_3_1_2 5000 1)
    by (apply pool_3_1_2_exact; simpl; lia).
  assert (H2 : (length pool_3_1_2 <= 3)%nat) by (simpl; lia).
  assert (H3 : total_value pool_3_1_2 >= 5000 + worstCaseFee empty_builder pool_3_1_2 1)
    by (vm_compute; discriminate).
  destruct (addUTXOsToFund_funds 3 empty_builder pool_3_1_2 5000 1 true H1 H2)
    as [Hfund Hnonneg].
  split; [exact H1|]. split; [exact H3|]. split; [|exact Hnonneg].
  apply Hfund; [discriminate|lia|lia|exact H3].
Defined.

Lemma addUTXOsToFund_returns_accounted_witness :
  exists change txB' c used unused,
    fund64 3 empty_builder (map to64 pool_3_1_2) (F64.of_Z 5000) (F64.of_Z 1) true
    = Some (Returned64 change, txB')
    /\ change = F64.of_Z c
    /\ Permutation pool_3_1_2 (used ++ unused)
    /\ total_value used
       = 5000 + c
         + 1 * (estimateTXBytes (inr txB') 0 0 - estimateTXBytes (inr empty_builder) 0 0).
Proof.
  destruct (fund64 3 empty_builder (map to64 pool_3_1_2) (F64.of_Z 5000) (F64.of_Z 1) true)
    as [[[change|e] txB']|] eqn:Hrun; try (vm_compute in Hrun; discriminate).
  destruct (addUTXOsToFund_returns_accounted 3 empty_builder txB' pool_3_1_2 5000 1 true
              change (pool_3_1_2_exact 5000 ltac:(simpl; lia)) Hrun)
    as (c & used & unused & Hc & _ & _ & Hp & _ & Hacc).
  exists change, txB', c, used, unused.
  split; [reflexivity|]. split; [exact Hc|]. split; [exact Hp|exact Hacc].
Defined.

Lemma addUTXOsToFund_raises_accounted_witness :
  exists amount txB' a used unused,
    fund64 3 empty_builder (map to64 pool_3_1_2) (F64.of_Z 10000) (F64.of_Z 1) true
    = Some (Threw64 (NotEnoughFundsError64 amount), txB')
    /\ amount = F64.of_Z a
    /\ Permutation pool_3_1_2 (used ++ unused)
    /\ a = 10000 - total_value used
           + 1 * (estimateTXBytes (inr txB') 0 0 - estimateTXBytes (inr empty_builder) 0 0).
Proof.
  destruct (fund64 3 empty_builder (map to64 pool_3_1_2) (F64.of_Z 10000) (F64.of_Z 1) true)
    as [[[change|[amount|]] txB']|] eqn:Hrun; try (vm_compute in Hrun; discriminate).
  destruct (addUTXOsToFund_raises_accounted 3 empty_builder txB' pool_3_1_2 10000 1 true
              amount (pool_3_1_2_exact 10000 ltac:(simpl; lia)) Hrun)
    as (a & used & unused & Ha & _ & Hp & _ & Hacc).
  exists amount, txB', a, used, unused.
  split; [reflexivity|]. split; [exact Ha|]. split; [exact Hp|exact Hacc].
Defined.

Lemma addUTXOsToFund_error_amount_witness :
  exists amount txB' a,
    fund64 3 empty_builder (map to64 pool_3_1_2) (F64.of_Z 10000) (F64.of_Z 1) true
    = Some (Threw64 (NotEnoughFundsError64 amount), txB')
    /\ amount = F64.of_Z a
    /\ 0 < a < 10000.
Proof.
  destruct (fund64 3 empty_builder (map to64 pool_3_1_2) (F64.of_Z 10000) (F64.of_Z 1) true)
    as [[[change|[amount|]] txB']|] eqn:Hrun; try (vm_compute in Hrun; discriminate).
  destruct (addUTXOsToFund_error_amount 3 empty_builder txB' pool_3_1_2 10000 1 true
              amount (pool_3_1_2_exact 10000 ltac:(simpl; lia)) Hrun)
    as (a & Ha & [[Hb _]|[_ Hlt]]).
  - exfalso. vm_compute in Hrun. injection Hrun as _ <-. discriminate Hb.
  - exists amount, txB', a. split; [reflexivity|]. split; [exact Ha|exact Hlt].
Defined.
